(** * GrammarScan: the diff of [src/components/Sidebar.tsx]

    A shallow embedding of [getDiffSegments], the function that compares
    the original text with the corrected text and produces the two lists of
    highlighted spans shown side by side, and the properties of it that the
    specification states.

    A JavaScript string is a sequence of UTF-16 code units; it is modelled
    as a list of code units.  The [while] loop of the source is a step
    function on the four variables it updates, iterated with fuel. *)

From Stdlib Require Import Ascii String.
From Stdlib Require DecimalString DecimalNat.
From Stdlib Require Import List Bool Arith NArith ZArith Lia.
From Stdlib Require Import Permutation Sorted.
Import ListNotations.

Set Implicit Arguments.

(** ** Strings *)

Module JS.

(** A code unit of a JavaScript string. *)
Definition code_unit := N.
Definition jsstring := list code_unit.

(** A string literal of the development, read as code units. *)
Definition js (s : string) : jsstring :=
  map N_of_ascii (list_ascii_of_string s).

Arguments js s%_string.

(** The class [\s] of a regular expression, which is also what [trim]
    strips: the WhiteSpace and LineTerminator code points of ECMAScript. *)
Definition is_space (c : code_unit) : bool :=
  ((9 <=? c) && (c <=? 13) ||
   (c =? 32) || (c =? 160) || (c =? 5760) ||
   (8192 <=? c) && (c <=? 8202) ||
   (c =? 8232) || (c =? 8233) || (c =? 8239) || (c =? 8287) ||
   (c =? 12288) || (c =? 65279))%N.

(** Truthiness of a string: the empty string is the only falsy one. *)
Definition truthy (s : jsstring) : bool :=
  match s with [] => false | _ :: _ => true end.

(** Truthiness of [string | undefined]. *)
Definition truthy_opt (s : option jsstring) : bool :=
  match s with Some t => truthy t | None => false end.

Fixpoint str_eqb (a b : jsstring) : bool :=
  match a, b with
  | [], [] => true
  | x :: a', y :: b' => (x =? y)%N && str_eqb a' b'
  | _, _ => false
  end.

(** [o === c] on [string | undefined]. *)
Definition strict_eq (o c : option jsstring) : bool :=
  match o, c with
  | Some a, Some b => str_eqb a b
  | None, None => true
  | _, _ => false
  end.

Fixpoint trim_start (s : jsstring) : jsstring :=
  match s with
  | [] => []
  | c :: s' => if is_space c then trim_start s' else s
  end.

(** [String.prototype.trim] *)
Definition trim (s : jsstring) : jsstring :=
  rev (trim_start (rev (trim_start s))).

(** [/^\s+$/.test(s)] *)
Definition test_all_space (s : jsstring) : bool :=
  truthy s && forallb is_space s.

(** [s.split(/(\s+)/)].  The separator is a maximal run of white space and,
    being captured, is spliced into the result between the pieces it
    separates.  [piece] is the piece being read, [in_sep] tells whether it is
    a separator. A separator at the very end is followed by an empty piece,
    one at the very start is preceded by one. *)
Fixpoint split_from (piece : jsstring) (in_sep : bool) (s : jsstring)
  : list jsstring :=
  match s with
  | [] => if in_sep then [piece; []] else [piece]
  | c :: s' =>
      if is_space c then
        if in_sep then split_from (piece ++ [c]) true s'
        else piece :: split_from [c] true s'
      else
        if in_sep then piece :: split_from [c] false s'
        else split_from (piece ++ [c]) false s'
  end.

Definition split_space (s : jsstring) : list jsstring :=
  split_from [] false s.

(** [s.split(/(\s+)/).filter(Boolean)] *)
Definition words (s : jsstring) : list jsstring :=
  filter truthy (split_space s).

(** The two kinds of token of the specification. *)
Definition is_space_token (t : jsstring) : bool :=
  truthy t && forallb is_space t.

Definition is_word_token (t : jsstring) : bool :=
  truthy t && forallb (fun c => negb (is_space c)) t.

End JS.

Import JS.

(** ** The diff *)

Module Diff.

(** The [key] of a span, before it is rendered by its template literal. *)
Inductive key : Type :=
| match_ (i j : nat)      (* `match-${i}-${j}` *)
| orig_err (i : nat)      (* `orig-err-${i}` *)
| corr_fix (j : nat)      (* `corr-fix-${j}` *)
| orig_del (i : nat)      (* `orig-del-${i}` *)
| corr_add (j : nat)      (* `corr-add-${j}` *)
| ws_o (i : nat)          (* `ws-o-${i}` *)
| ws_c (j : nat).         (* `ws-c-${j}` *)

(** [`${n}`] for an array index [n]: its decimal numeral. *)
Definition dec (n : nat) : string :=
  DecimalString.NilEmpty.string_of_uint (Nat.to_uint n).

Local Open Scope string_scope.

(** The string a key is in the rendered element. *)
Definition key_string (k : key) : string :=
  match k with
  | match_ i j => "match-" ++ dec i ++ "-" ++ dec j
  | orig_err i => "orig-err-" ++ dec i
  | corr_fix j => "corr-fix-" ++ dec j
  | orig_del i => "orig-del-" ++ dec i
  | corr_add j => "corr-add-" ++ dec j
  | ws_o i => "ws-o-" ++ dec i
  | ws_c j => "ws-c-" ++ dec j
  end.

(** [<span key=... className=...>{children}</span>] *)
Record node : Type := Span {
  key_of : key;
  className : option string;
  children : jsstring
}.

Definition slate : string := "text-slate-400".
Definition red : string :=
  "text-red-400/80 font-medium underline decoration-red-500/30 underline-offset-[6px] decoration-1".
Definition green : string := "text-[#00f5b4] font-semibold".

Local Close Scope string_scope.

(** The child [{o}] of a span: React renders [undefined] as nothing. *)
Definition text_of (x : option jsstring) : jsstring :=
  match x with Some t => t | None => [] end.

(** The variables of the loop. *)
Record state : Type := State {
  i : nat;
  j : nat;
  originalSegments : list node;
  correctedSegments : list node
}.

Definition pushO (n : node) (st : state) : state :=
  State (i st) (j st) (originalSegments st ++ [n]) (correctedSegments st).

Definition pushC (n : node) (st : state) : state :=
  State (i st) (j st) (originalSegments st) (correctedSegments st ++ [n]).

Definition incr_i (st : state) : state :=
  State (S (i st)) (j st) (originalSegments st) (correctedSegments st).

Definition incr_j (st : state) : state :=
  State (i st) (S (j st)) (originalSegments st) (correctedSegments st).

Section Loop.

Variables wordsO wordsC : list jsstring.

(** [i < wordsO.length || j < wordsC.length] *)
Definition cond (st : state) : bool :=
  (i st <? List.length wordsO) || (j st <? List.length wordsC).

(** One turn of the loop. *)
Definition body (st : state) : state :=
  let o := nth_error wordsO (i st) in
  let c := nth_error wordsC (j st) in
  if strict_eq o c then
    (* Case 1: Exact match *)
    let st1 :=
      match o with
      | Some t =>
          let node := Span (match_ (i st) (j st)) (Some slate) t in
          pushC node (pushO node st)
      | None => st
      end in
    incr_j (incr_i st1)
  else
    (* Case 2: Content mismatch *)
    let oTrim := option_map trim o in
    let cTrim := option_map trim c in
    if truthy_opt oTrim && truthy_opt cTrim then
      (* Substitution *)
      let st1 := pushO (Span (orig_err (i st)) (Some red) (text_of o)) st in
      let st2 := pushC (Span (corr_fix (j st)) (Some green) (text_of c)) st1 in
      incr_j (incr_i st2)
    else if truthy_opt oTrim then
      (* Deletion from original *)
      incr_i (pushO (Span (orig_del (i st)) (Some red) (text_of o)) st)
    else if truthy_opt cTrim then
      (* Addition in corrected *)
      incr_j (pushC (Span (corr_add (j st)) (Some green) (text_of c)) st)
    else
      (* Sync whitespace *)
      let st1 :=
        if truthy_opt o && test_all_space (text_of o)
        then incr_i (pushO (Span (ws_o (i st)) None (text_of o)) st)
        else st in
      if truthy_opt c && test_all_space (text_of c)
      then incr_j (pushC (Span (ws_c (j st1)) None (text_of c)) st1)
      else st1.

(** [while (cond) body], with a bound on the number of turns. *)
Fixpoint while (fuel : nat) (st : state) : option state :=
  if cond st then
    match fuel with
    | 0 => None
    | S fuel' => while fuel' (body st)
    end
  else Some st.

(** The states at the start of each turn of the loop. *)
Fixpoint turns (fuel : nat) (st : state) : list state :=
  if cond st then
    match fuel with
    | 0 => []
    | S fuel' => st :: turns fuel' (body st)
    end
  else [].

(** The spans a turn pushes, on each side. *)
Definition emitted (st : state) : list node * list node :=
  (skipn (List.length (originalSegments st)) (originalSegments (body st)),
   skipn (List.length (correctedSegments st)) (correctedSegments (body st))).

End Loop.

Definition init : state := State 0 0 [] [].

(** The function with the fuel of its loop as a parameter. *)
Definition getDiffSegments_fuel (fuel : nat) (original corrected : jsstring)
  : option (list node * list node) :=
  let wordsO := words original in
  let wordsC := words corrected in
  match while wordsO wordsC fuel init with
  | Some st => Some (originalSegments st, correctedSegments st)
  | None => None
  end.

(** [getDiffSegments(original, corrected)]; the pair stands for the object
    [{ originalSegments, correctedSegments }].  Every turn of the loop moves
    [i] or [j] forward, so the number of tokens bounds the number of turns
    ([while_total] below). *)
Definition getDiffSegments (original corrected : jsstring)
  : option (list node * list node) :=
  getDiffSegments_fuel
    (List.length (words original) + List.length (words corrected))
    original corrected.

End Diff.

Import Diff.

(** ** The diff on the heap

    [getDiffSegments] once more, with the objects it makes and changes kept
    in a heap: the arrays of [split] and [filter], the two arrays of spans
    that [push] changes and that are returned, and the regular expressions
    of its literals. A heap holds whatever was made before the call, the
    arrays of earlier calls among it. *)

Module Store.

(** An object of the heap: an array of strings, an array of spans, or a
    regular expression with its flag [g] and its [lastIndex]. A span is a
    React element, which nothing changes once it is made; it is a value. *)
Inductive object : Type :=
| Strings (items : list jsstring)
| Nodes (items : list node)
| RegExp (global : bool) (lastIndex : nat).

Definition heap : Type := list object.

(** A reference is the place of its object in the heap. *)
Definition ref : Type := nat.

(** A computation on the heap; [None] when it throws or when the bound on
    the turns of the loop is reached. *)
Definition M (A : Type) : Type := heap -> option (A * heap).

Definition ret (A : Type) (a : A) : M A := fun h => Some (a, h).

Definition bind (A B : Type) (m : M A) (f : A -> M B) : M B :=
  fun h =>
    match m h with
    | Some (a, h') => f a h'
    | None => None
    end.

Definition throw (A : Type) : M A := fun _ => None.

Arguments throw {A}.

Notation "x <- m ;; k" := (bind m (fun x => k))
  (at level 61, m at next level, right associativity).

(** A new object, after those there are. *)
Definition alloc (o : object) : M ref :=
  fun h => Some (List.length h, h ++ [o]).

Definition read (r : ref) : M object :=
  fun h =>
    match nth_error h r with
    | Some o => Some (o, h)
    | None => None
    end.

Fixpoint update (r : ref) (o : object) (h : heap) : heap :=
  match h, r with
  | [], _ => []
  | _ :: h', 0 => o :: h'
  | x :: h', S r' => x :: update r' o h'
  end.

Definition write (r : ref) (o : object) : M unit :=
  fun h => if r <? List.length h then Some (tt, update r o h) else None.

(** [/(\s+)/] and [/^\s+$/]: a literal makes a new object every time it is
    evaluated, without the flag [g], with [lastIndex] 0. *)
Definition regexp_literal : M ref := alloc (RegExp false 0).

(** [s.split(re)] for [re] made by [/(\s+)/]: a new array. The splitting
    works on a copy of [re] and leaves its [lastIndex] as it is. *)
Definition split (s : jsstring) (re : ref) : M ref :=
  o <- read re ;;
  match o with
  | RegExp _ _ => alloc (Strings (split_space s))
  | _ => throw
  end.

(** [arr.filter(Boolean)]: a new array. *)
Definition filter_Boolean (arr : ref) : M ref :=
  o <- read arr ;;
  match o with
  | Strings l => alloc (Strings (filter truthy l))
  | _ => throw
  end.

(** [arr.length] *)
Definition length_of (arr : ref) : M nat :=
  o <- read arr ;;
  match o with
  | Strings l => ret (List.length l)
  | Nodes l => ret (List.length l)
  | RegExp _ _ => throw
  end.

(** [arr[k]] for an array of strings, [undefined] past its end. *)
Definition get (arr : ref) (k : nat) : M (option jsstring) :=
  o <- read arr ;;
  match o with
  | Strings l => ret (nth_error l k)
  | _ => throw
  end.

(** [arr.push(node)] *)
Definition push (arr : ref) (n : node) : M unit :=
  o <- read arr ;;
  match o with
  | Nodes l => write arr (Nodes (l ++ [n]))
  | _ => throw
  end.

(** [re.test(s)] for [re] made by [/^\s+$/]. With the flag [g] the match
    starts at [lastIndex], where [^] matches only if it is 0, and
    [lastIndex] is set to the end of the match, or to 0 when there is none;
    without it [lastIndex] is neither read nor written. *)
Definition test (re : ref) (s : jsstring) : M bool :=
  o <- read re ;;
  match o with
  | RegExp global lastIndex =>
      if global then
        if (lastIndex =? 0) && test_all_space s then
          _ <- write re (RegExp true (List.length s)) ;;
          ret true
        else
          _ <- write re (RegExp true 0) ;;
          ret false
      else ret (test_all_space s)
  | _ => throw
  end.

Section Loop.

(** The four constants of the function, references to arrays. *)
Variables wordsO wordsC originalSegments correctedSegments : ref.

(** [i < wordsO.length || j < wordsC.length] for the variables [i] and
    [j], here a pair. *)
Definition cond (ij : nat * nat) : M bool :=
  lenO <- length_of wordsO ;;
  if fst ij <? lenO then ret true
  else
    lenC <- length_of wordsC ;;
    ret (snd ij <? lenC).

(** One turn of the loop; it gives [i] and [j] as they are at its end. *)
Definition body (ij : nat * nat) : M (nat * nat) :=
  let i := fst ij in
  let j := snd ij in
  o <- get wordsO i ;;
  c <- get wordsC j ;;
  if strict_eq o c then
    (* Case 1: Exact match *)
    _ <- match o with
         | Some t =>
             let node := Span (match_ i j) (Some slate) t in
             _ <- push originalSegments node ;;
             push correctedSegments node
         | None => ret tt
         end ;;
    ret (S i, S j)
  else
    (* Case 2: Content mismatch *)
    let oTrim := option_map trim o in
    let cTrim := option_map trim c in
    if truthy_opt oTrim && truthy_opt cTrim then
      (* Substitution *)
      _ <- push originalSegments
             (Span (orig_err i) (Some red) (text_of o)) ;;
      _ <- push correctedSegments
             (Span (corr_fix j) (Some green) (text_of c)) ;;
      ret (S i, S j)
    else if truthy_opt oTrim then
      (* Deletion from original *)
      _ <- push originalSegments
             (Span (orig_del i) (Some red) (text_of o)) ;;
      ret (S i, j)
    else if truthy_opt cTrim then
      (* Addition in corrected *)
      _ <- push correctedSegments
             (Span (corr_add j) (Some green) (text_of c)) ;;
      ret (i, S j)
    else
      (* Sync whitespace *)
      i1 <- (if truthy_opt o then
               re <- regexp_literal ;;
               b <- test re (text_of o) ;;
               if b then
                 _ <- push originalSegments
                        (Span (ws_o i) None (text_of o)) ;;
                 ret (S i)
               else ret i
             else ret i) ;;
      j1 <- (if truthy_opt c then
               re <- regexp_literal ;;
               b <- test re (text_of c) ;;
               if b then
                 _ <- push correctedSegments
                        (Span (ws_c j) None (text_of c)) ;;
                 ret (S j)
               else ret j
             else ret j) ;;
      ret (i1, j1).

(** [while (cond) body], with a bound on the number of turns. *)
Fixpoint while (fuel : nat) (ij : nat * nat) : M (nat * nat) :=
  b <- cond ij ;;
  if b then
    match fuel with
    | 0 => throw
    | S fuel' =>
        ij' <- body ij ;;
        while fuel' ij'
    end
  else ret ij.

End Loop.

(** The function with the fuel of its loop as a parameter; it gives the
    references to the two arrays of the object
    [{ originalSegments, correctedSegments }]. *)
Definition getDiffSegments_fuel (fuel : nat) (original corrected : jsstring)
  : M (ref * ref) :=
  reO <- regexp_literal ;;
  splitO <- split original reO ;;
  wordsO <- filter_Boolean splitO ;;
  reC <- regexp_literal ;;
  splitC <- split corrected reC ;;
  wordsC <- filter_Boolean splitC ;;
  originalSegments <- alloc (Nodes []) ;;
  correctedSegments <- alloc (Nodes []) ;;
  _ <- while wordsO wordsC originalSegments correctedSegments fuel (0, 0) ;;
  ret (originalSegments, correctedSegments).

(** [getDiffSegments(original, corrected)], with as many turns as there are
    tokens. *)
Definition getDiffSegments (original corrected : jsstring) : M (ref * ref) :=
  getDiffSegments_fuel
    (List.length (words original) + List.length (words corrected))
    original corrected.

(** The spans of the array of a reference. *)
Definition nodes_at (r : ref) (h : heap) : option (list node) :=
  match nth_error h r with
  | Some (Nodes l) => Some l
  | _ => None
  end.

End Store.

(** ** Notions the properties are stated with *)

(** *** Tokens *)

(** Runs of alternating kind: [alt k l] says that the tokens of [l] are not
    empty, that the first is made of characters [c] with [is_space c = k]
    only, the next of characters of the other kind, and so on in turn. *)
Fixpoint alt (k : bool) (l : list jsstring) : Prop :=
  match l with
  | [] => True
  | t :: l' =>
      t <> [] /\ Forall (fun c => is_space c = k) t /\ alt (negb k) l'
  end.

(** Where token number [t] starts in the string. *)
Definition offset (l : list jsstring) (t : nat) : nat :=
  List.length (concat (firstn t l)).

(** A token that is absent or has white space only. *)
Definition blank (x : option jsstring) : Prop :=
  match x with Some t => forallb is_space t = true | None => True end.

(** *** The cases of a turn *)

Section Cases.

Variables wordsO wordsC : list jsstring.

(** What the tokens at [i] and [j] are in each case, and the state the turn
    ends in. The last case is that of a turn that changes nothing; it needs
    an empty string among the tokens. *)
Inductive Step (st : state) : state -> Prop :=
| step_match t :
    nth_error wordsO (i st) = Some t ->
    nth_error wordsC (j st) = Some t ->
    let node := Span (match_ (i st) (j st)) (Some slate) t in
    Step st (State (S (i st)) (S (j st))
               (originalSegments st ++ [node]) (correctedSegments st ++ [node]))
| step_subst o c :
    nth_error wordsO (i st) = Some o ->
    nth_error wordsC (j st) = Some c ->
    o <> c ->
    forallb is_space o = false ->
    forallb is_space c = false ->
    Step st (State (S (i st)) (S (j st))
               (originalSegments st ++ [Span (orig_err (i st)) (Some red) o])
               (correctedSegments st ++ [Span (corr_fix (j st)) (Some green) c]))
| step_delete o :
    nth_error wordsO (i st) = Some o ->
    forallb is_space o = false ->
    blank (nth_error wordsC (j st)) ->
    Step st (State (S (i st)) (j st)
               (originalSegments st ++ [Span (orig_del (i st)) (Some red) o])
               (correctedSegments st))
| step_insert c :
    blank (nth_error wordsO (i st)) ->
    nth_error wordsC (j st) = Some c ->
    forallb is_space c = false ->
    Step st (State (i st) (S (j st))
               (originalSegments st)
               (correctedSegments st ++ [Span (corr_add (j st)) (Some green) c]))
| step_ws_both o c :
    nth_error wordsO (i st) = Some o ->
    nth_error wordsC (j st) = Some c ->
    o <> c ->
    is_space_token o = true ->
    is_space_token c = true ->
    Step st (State (S (i st)) (S (j st))
               (originalSegments st ++ [Span (ws_o (i st)) None o])
               (correctedSegments st ++ [Span (ws_c (j st)) None c]))
| step_ws_o o :
    nth_error wordsO (i st) = Some o ->
    is_space_token o = true ->
    truthy_opt (nth_error wordsC (j st)) = false ->
    Step st (State (S (i st)) (j st)
               (originalSegments st ++ [Span (ws_o (i st)) None o])
               (correctedSegments st))
| step_ws_c c :
    truthy_opt (nth_error wordsO (i st)) = false ->
    nth_error wordsC (j st) = Some c ->
    is_space_token c = true ->
    Step st (State (i st) (S (j st))
               (originalSegments st)
               (correctedSegments st ++ [Span (ws_c (j st)) None c]))
| step_stuck :
    nth_error wordsO (i st) <> nth_error wordsC (j st) ->
    truthy_opt (nth_error wordsO (i st)) = false ->
    truthy_opt (nth_error wordsC (j st)) = false ->
    Step st st.

(** What is left to read of the two token arrays. *)
Definition measure (st : state) : nat :=
  (List.length wordsO - i st) + (List.length wordsC - j st).

End Cases.

(** *** Spans *)

(** The index in [wordsO] a key of the original side is made from, and the
    index in [wordsC] for a key of the corrected side. *)
Definition orig_index (k : key) : nat :=
  match k with
  | match_ a _ | orig_err a | orig_del a | ws_o a => a
  | corr_fix _ | corr_add _ | ws_c _ => 0
  end.

Definition corr_index (k : key) : nat :=
  match k with
  | match_ _ b | corr_fix b | corr_add b | ws_c b => b
  | orig_err _ | orig_del _ | ws_o _ => 0
  end.

(** The operation a span shows. White space that is in one text only is
    passed through without a style: it is a Delete or an Insert of a Space
    token. *)
Definition is_match (n : node) : bool :=
  match key_of n with match_ _ _ => true | _ => false end.

Definition is_substitute (n : node) : bool :=
  match key_of n with orig_err _ | corr_fix _ => true | _ => false end.

Definition is_delete (n : node) : bool :=
  match key_of n with orig_del _ | ws_o _ => true | _ => false end.

Definition is_insert (n : node) : bool :=
  match key_of n with corr_add _ | ws_c _ => true | _ => false end.

Section Invariants.

Variables wordsO wordsC : list jsstring.

(** What the loop knows of a span it has pushed on the original side. *)
Definition okO (n : node) : Prop :=
  nth_error wordsO (orig_index (key_of n)) = Some (children n) /\
  match key_of n with
  | match_ _ b =>
      nth_error wordsC b = Some (children n) /\ className n = Some slate
  | orig_err _ | orig_del _ =>
      forallb is_space (children n) = false /\ className n = Some red
  | ws_o _ => is_space_token (children n) = true /\ className n = None
  | _ => False
  end.

(** The same for the corrected side. *)
Definition okC (n : node) : Prop :=
  nth_error wordsC (corr_index (key_of n)) = Some (children n) /\
  match key_of n with
  | match_ a _ =>
      nth_error wordsO a = Some (children n) /\ className n = Some slate
  | corr_fix _ | corr_add _ =>
      forallb is_space (children n) = false /\ className n = Some green
  | ws_c _ => is_space_token (children n) = true /\ className n = None
  | _ => False
  end.

(** White space on the original side is a Match with the same token of the
    corrected text, or is passed through without a style; the same for the
    corrected side. *)
Definition space_okO (n : node) : Prop :=
  (exists a b, key_of n = match_ a b /\
     nth_error wordsO a = Some (children n) /\
     nth_error wordsC b = Some (children n)) \/
  (exists a, key_of n = ws_o a /\ className n = None).

Definition space_okC (n : node) : Prop :=
  (exists a b, key_of n = match_ a b /\
     nth_error wordsO a = Some (children n) /\
     nth_error wordsC b = Some (children n)) \/
  (exists b, key_of n = ws_c b /\ className n = None).

(** What holds of the spans pushed so far, at every turn of the loop: their
    texts are the tokens read so far, *)
Definition inv_text (st : state) : Prop :=
  map children (originalSegments st) = firstn (i st) wordsO /\
  map children (correctedSegments st) = firstn (j st) wordsC.

(** each is as its case makes it, *)
Definition inv_node (st : state) : Prop :=
  Forall okO (originalSegments st) /\ Forall okC (correctedSegments st).

(** the span at place [k] on a side has its key made from the index [k], *)
Definition inv_index (st : state) : Prop :=
  map (fun n => orig_index (key_of n)) (originalSegments st) = seq 0 (i st) /\
  map (fun n => corr_index (key_of n)) (correctedSegments st) = seq 0 (j st).

(** and the spans of the Matches are the same on the two sides. *)
Definition inv_shared (st : state) : Prop :=
  filter is_match (originalSegments st) =
  filter is_match (correctedSegments st).

(** What holds at every turn when a string is compared with itself. *)
Definition inv_same (st : state) : Prop :=
  i st = j st /\
  originalSegments st = correctedSegments st /\
  Forall (fun n => is_match n = true /\ className n = Some slate)
    (originalSegments st).

(** What holds at every turn when the original string has no token, and
    when the corrected string has none. *)
Definition inv_added (st : state) : Prop :=
  originalSegments st = [] /\
  Forall (fun n => is_insert n = true) (correctedSegments st).

Definition inv_removed (st : state) : Prop :=
  correctedSegments st = [] /\
  Forall (fun n => is_delete n = true) (originalSegments st).

End Invariants.

(** *** Alignment operations *)

(** The alignment operations of the specification. *)
Inductive op : Type :=
| Match (t : jsstring)
| Substitute (o c : jsstring)
| Delete (o : jsstring)
| Insert (c : jsstring).

(** The operations a turn of the loop stands for, read off the spans it
    pushes: the same span on both sides is a Match, a pair of [orig-err] and
    [corr-fix] a Substitute, a span on the original side alone a Delete, one
    on the corrected side alone an Insert; the two spans of a white space
    sync are a Delete and an Insert. *)
Definition ops_of_turn (e : list node * list node) : list op :=
  match e with
  | ([n], [m]) =>
      match key_of n, key_of m with
      | match_ _ _, match_ _ _ => [Match (children n)]
      | orig_err _, corr_fix _ => [Substitute (children n) (children m)]
      | ws_o _, ws_c _ => [Delete (children n); Insert (children m)]
      | _, _ => []
      end
  | ([n], []) =>
      match key_of n with
      | orig_del _ | ws_o _ => [Delete (children n)]
      | _ => []
      end
  | ([], [m]) =>
      match key_of m with
      | corr_add _ | ws_c _ => [Insert (children m)]
      | _ => []
      end
  | _ => []
  end.

Definition alignment_fuel (fuel : nat) (original corrected : jsstring)
  : list op :=
  let wordsO := words original in
  let wordsC := words corrected in
  flat_map (fun st => ops_of_turn (emitted wordsO wordsC st))
    (turns wordsO wordsC fuel init).

(** The alignment [getDiffSegments] walks through, turn after turn. *)
Definition alignment (original corrected : jsstring) : list op :=
  alignment_fuel
    (List.length (words original) + List.length (words corrected))
    original corrected.

Definition original_side (a : op) : list jsstring :=
  match a with
  | Match t => [t]
  | Substitute o _ => [o]
  | Delete o => [o]
  | Insert _ => []
  end.

Definition revised_side (a : op) : list jsstring :=
  match a with
  | Match t => [t]
  | Substitute _ c => [c]
  | Delete _ => []
  | Insert c => [c]
  end.

Definition is_Match (a : op) : bool :=
  match a with Match _ => true | _ => false end.

Definition is_Substitute (a : op) : bool :=
  match a with Substitute _ _ => true | _ => false end.

(** The number of operations that are not a Match. *)
Definition cost (l : list op) : nat :=
  List.length (filter (fun a => negb (is_Match a)) l).

(** [l] is an alignment of the token sequences [O] and [C]: its two halves
    give them back, and it substitutes words for other words only. *)
Definition aligns (l : list op) (O C : list jsstring) : Prop :=
  flat_map original_side l = O /\
  flat_map revised_side l = C /\
  Forall (fun a =>
            match a with
            | Substitute o c =>
                is_word_token o = true /\ is_word_token c = true /\ o <> c
            | _ => True
            end) l.

(** An alignment with the least number of operations that are not a Match,
    which the specification asks of the diff. *)
Definition minimal_alignment (original corrected : jsstring) : Prop :=
  forall l : list op,
    aligns l (words original) (words corrected) ->
    cost (alignment original corrected) <= cost l.

(** After a Delete of a word: is the next operation that is not about white
    space an Insert of a word? *)
Fixpoint insert_follows (l : list op) : bool :=
  match l with
  | Insert c :: l' => if is_space_token c then insert_follows l' else true
  | Delete o :: l' => if is_space_token o then insert_follows l' else false
  | _ => false
  end.

(** A Delete of a word followed, with white space only in between, by an
    Insert of a word: the pair the specification has collapsed into a
    Substitute. *)
Fixpoint uncollapsed (l : list op) : bool :=
  match l with
  | [] => false
  | Delete o :: l' =>
      (negb (is_space_token o) && insert_follows l') || uncollapsed l'
  | _ :: l' => uncollapsed l'
  end.

(** What the operations of a turn say of the tokens at [i] and [j]. *)
Definition turn_facts (wordsO wordsC : list jsstring) (st : state)
  (l : list op) : Prop :=
  (forall t, In (Match t) l ->
     nth_error wordsO (i st) = Some t /\ nth_error wordsC (j st) = Some t) /\
  (forall o c, In (Substitute o c) l ->
     nth_error wordsO (i st) = Some o /\ nth_error wordsC (j st) = Some c /\
     o <> c /\ forallb is_space o = false /\ forallb is_space c = false) /\
  (forall o, In (Delete o) l ->
     nth_error wordsO (i st) = Some o /\
     nth_error wordsC (j st) <> Some o /\
     (forallb is_space o = false -> blank (nth_error wordsC (j st)))) /\
  (forall c, In (Insert c) l ->
     nth_error wordsC (j st) = Some c /\
     nth_error wordsO (i st) <> Some c /\
     (forallb is_space c = false -> blank (nth_error wordsO (i st)))).

(** *** Rendered keys *)

(** A string without a dash, as a decimal numeral is. *)
Fixpoint no_dash (s : string) : Prop :=
  match s with
  | EmptyString => True
  | String a s' => a <> "-"%char /\ no_dash s'
  end.

(** ** The rest of the sidebar *)

Module View.

(** [text.split('\n')]: the pieces between the line feeds; [line] is the
    piece being read. *)
Fixpoint split_lines_from (line : jsstring) (s : jsstring) : list jsstring :=
  match s with
  | [] => [line]
  | c :: s' =>
      if (c =? 10)%N then line :: split_lines_from [] s'
      else split_lines_from (line ++ [c]) s'
  end.

Definition split_lines (s : jsstring) : list jsstring :=
  split_lines_from [] s.

(** [<React.Fragment key={i}><span className=...>{line}</span>
    {i < arr.length - 1 && <br />}</React.Fragment>] *)
Record fragment : Type := Fragment {
  fragment_key : nat;
  span_class : string;
  line : jsstring;
  br : bool
}.

Local Open Scope string_scope.

Definition highlighted : string := "text-[#00f5b4] font-medium".

(** [highlight ? "text-[#00f5b4] font-medium" : ""], for the optional
    property [highlight]. *)
Definition line_class (highlight : option bool) : string :=
  match highlight with Some true => highlighted | _ => "" end.

Local Close Scope string_scope.

(** [arr.map((line, i, arr) => ...)], from index [k] on; [len] is
    [arr.length]. *)
Fixpoint fragments_from (highlight : option bool) (len k : nat)
  (arr : list jsstring) : list fragment :=
  match arr with
  | [] => []
  | l :: arr' =>
      Fragment k (line_class highlight) l (k <? len - 1)
        :: fragments_from highlight len (S k) arr'
  end.

(** [SafeText]: [null] for an empty text, else a line and a [<br />]
    for every line feed of the text, and a last line. *)
Definition SafeText (text : jsstring) (highlight : option bool)
  : option (list fragment) :=
  if negb (truthy text) then None
  else
    let arr := split_lines text in
    Some (fragments_from highlight (List.length arr) 0 arr).

(** What a reader sees of the fragments: the lines, with a line feed where
    there is a [<br />]. *)
Definition fragments_text (l : list fragment) : jsstring :=
  flat_map (fun f => line f ++ (if br f then [10%N] else [])) l.

(** [interface AnalysisResponse] of [src/types.ts]. *)
Record AnalysisResponse : Type := Analysis {
  detected_language : jsstring;
  corrected_text : jsstring;
  paraphrase : jsstring;
  rewrite_ : jsstring;
  tone : jsstring
}.

(** What the two panes hold: the spans of the diff, or the one [SafeText]
    element with the key "safe". *)
Inductive segment : Type :=
| Node (n : node)
| SafeTextEl (key : string) (rendered : option (list fragment)).

(** What [Sidebar] returns: the spinner, the placeholder, or the results
    with the badge of the language, the pane of the original text, the pane
    of the corrected text when it is shown, and the tone and the text of the
    paraphrase when they are shown. *)
Inductive view : Type :=
| Spinner
| Placeholder
| Results (badge : jsstring)
    (original_pane : list segment)
    (corrected_pane : option (list segment))
    (paraphrase_pane : option (jsstring * option (list fragment))).

(** [Sidebar({ analysis, originalText, isLoading })]. The result is [None]
    only if the loop of the diff runs out of fuel, which it does not
    ([Sidebar_total] below). *)
Definition Sidebar (analysis : option AnalysisResponse)
  (originalText : option jsstring) (isLoading : bool) : option view :=
  if isLoading then Some Spinner
  else
    match analysis with
    | None => Some Placeholder
    | Some a =>
        let segments :=
          if truthy_opt originalText then
            option_map
              (fun r => (map Node (fst r), map Node (snd r)))
              (getDiffSegments (text_of originalText) (corrected_text a))
          else
            Some ([], [SafeTextEl "safe" (SafeText (corrected_text a) None)])
        in
        match segments with
        | Some (originalSegments, correctedSegments) =>
            Some (Results
                    (if truthy (detected_language a) then detected_language a
                     else js "Detected")
                    originalSegments
                    (if truthy (corrected_text a) then Some correctedSegments
                     else None)
                    (if truthy (paraphrase a)
                     then Some (tone a, SafeText (paraphrase a) None)
                     else None))
        | None => None
        end
    end.

(** The text of a pane, as it is read. *)
Definition segment_text (s : segment) : jsstring :=
  match s with
  | Node n => children n
  | SafeTextEl _ (Some l) => fragments_text l
  | SafeTextEl _ None => []
  end.

Definition pane_text (l : list segment) : jsstring :=
  flat_map segment_text l.

End View.

Import View.

(** ** The application *)

Module App.

(** *** The word counter *)




(** *** Modes and styles *)

(** [enum WritingMode] of [src/types.ts], and the strings that are its
    values. *)
Inductive WritingMode : Type :=
| BUSINESS_EMAIL
| ACADEMIC_ESSAY
| RESUME_BULLETS
| CREATIVE_WRITING
| BLOG_PARAGRAPH
| INBOX_INTEL
| CORRECTION.

Definition mode_value (m : WritingMode) : jsstring :=
  match m with
  | BUSINESS_EMAIL => js "Business Email"
  | ACADEMIC_ESSAY => js "Academic Essay"
  | RESUME_BULLETS => js "Resume Bullet Points"
  | CREATIVE_WRITING => js "Creative Writing"
  | BLOG_PARAGRAPH => js "Blog Paragraph"
  | INBOX_INTEL => js "Inbox Optimization Intelligence"
  | CORRECTION => js "Correction"
  end.

Definition STYLE_WHITELIST : list jsstring :=
  [js "normal"; js "professional"; js "academic"; js "friendly";
   js "email"; js "creative"].

(** [arr.includes(s)] for an array of strings. *)
Definition includes (arr : list jsstring) (s : jsstring) : bool :=
  existsb (str_eqb s) arr.

(** The object [styleMap] of [handleModeSelect], as the list of its keys and
    values, and [styleMap[key]]. The keys are all different. *)
Definition styleMap : list (jsstring * jsstring) :=
  [(mode_value BUSINESS_EMAIL, js "email");
   (mode_value ACADEMIC_ESSAY, js "academic");
   (mode_value RESUME_BULLETS, js "professional");
   (mode_value CREATIVE_WRITING, js "creative");
   (mode_value BLOG_PARAGRAPH, js "friendly");
   (mode_value INBOX_INTEL, js "professional");
   (mode_value CORRECTION, js "normal")].

Fixpoint lookup (key : jsstring) (obj : list (jsstring * jsstring))
  : option jsstring :=
  match obj with
  | [] => None
  | (k, v) :: obj' => if str_eqb key k then Some v else lookup key obj'
  end.

(** *** The state *)

Inductive toast_type : Type := success | info.

(** [setUser({ email })] and [setUser({ name })]. *)
Inductive user_info : Type :=
| with_email (e : jsstring)
| with_name (n : jsstring).

(** [interface HistoryEntry] *)
Record HistoryEntry : Type := Entry {
  id : Z;
  text : jsstring;
  date : jsstring
}.

(** What [localStorage] holds under 'grammarscan_saved_results', by what
    [JSON.parse] makes of it: nothing, a string that is not JSON, or the
    array of entries the application wrote with [JSON.stringify]. *)
Inductive stored : Type :=
| Absent
| Unparsable
| Saved (l : list HistoryEntry).

(** What the handlers send and write outside the component. *)
Inductive effect : Type :=
| AnalyzeRequest (text mode tone : jsstring)
| SignupRequest (email : jsstring)
| ClipboardWrite (t : jsstring)
| PdfSave (t : jsstring)
| TxtDownload (t : jsstring)
| ConsoleWarn
| ConsoleError.

(** The state variables of [App], with the store and the log of the
    effects. *)
Record app : Type := MkApp {
  user : option user_info;
  isAuthModalOpen : bool;
  email : jsstring;
  isAuthLoading : bool;
  content : jsstring;
  selectedMode : WritingMode;
  paraphraseStyle : jsstring;
  analysis : option AnalysisResponse;
  isLoading : bool;
  isPickyMode : bool;
  toast : option (jsstring * toast_type);
  isStyleMenuOpen : bool;
  isHistoryOpen : bool;
  historyItems : list HistoryEntry;
  storage : stored;
  effects : list effect
}.

Definition set_user (v : option user_info) (st : app) : app :=
  MkApp v (isAuthModalOpen st) (email st) (isAuthLoading st) (content st)
    (selectedMode st) (paraphraseStyle st) (analysis st) (isLoading st)
    (isPickyMode st) (toast st) (isStyleMenuOpen st) (isHistoryOpen st)
    (historyItems st) (storage st) (effects st).

Definition set_isAuthModalOpen (v : bool) (st : app) : app :=
  MkApp (user st) v (email st) (isAuthLoading st) (content st)
    (selectedMode st) (paraphraseStyle st) (analysis st) (isLoading st)
    (isPickyMode st) (toast st) (isStyleMenuOpen st) (isHistoryOpen st)
    (historyItems st) (storage st) (effects st).

Definition set_email (v : jsstring) (st : app) : app :=
  MkApp (user st) (isAuthModalOpen st) v (isAuthLoading st) (content st)
    (selectedMode st) (paraphraseStyle st) (analysis st) (isLoading st)
    (isPickyMode st) (toast st) (isStyleMenuOpen st) (isHistoryOpen st)
    (historyItems st) (storage st) (effects st).

Definition set_isAuthLoading (v : bool) (st : app) : app :=
  MkApp (user st) (isAuthModalOpen st) (email st) v (content st)
    (selectedMode st) (paraphraseStyle st) (analysis st) (isLoading st)
    (isPickyMode st) (toast st) (isStyleMenuOpen st) (isHistoryOpen st)
    (historyItems st) (storage st) (effects st).

Definition set_content (v : jsstring) (st : app) : app :=
  MkApp (user st) (isAuthModalOpen st) (email st) (isAuthLoading st) v
    (selectedMode st) (paraphraseStyle st) (analysis st) (isLoading st)
    (isPickyMode st) (toast st) (isStyleMenuOpen st) (isHistoryOpen st)
    (historyItems st) (storage st) (effects st).

Definition set_selectedMode (v : WritingMode) (st : app) : app :=
  MkApp (user st) (isAuthModalOpen st) (email st) (isAuthLoading st)
    (content st) v (paraphraseStyle st) (analysis st) (isLoading st)
    (isPickyMode st) (toast st) (isStyleMenuOpen st) (isHistoryOpen st)
    (historyItems st) (storage st) (effects st).

Definition set_paraphraseStyle (v : jsstring) (st : app) : app :=
  MkApp (user st) (isAuthModalOpen st) (email st) (isAuthLoading st)
    (content st) (selectedMode st) v (analysis st) (isLoading st)
    (isPickyMode st) (toast st) (isStyleMenuOpen st) (isHistoryOpen st)
    (historyItems st) (storage st) (effects st).

Definition set_analysis (v : option AnalysisResponse) (st : app) : app :=
  MkApp (user st) (isAuthModalOpen st) (email st) (isAuthLoading st)
    (content st) (selectedMode st) (paraphraseStyle st) v (isLoading st)
    (isPickyMode st) (toast st) (isStyleMenuOpen st) (isHistoryOpen st)
    (historyItems st) (storage st) (effects st).

Definition set_isLoading (v : bool) (st : app) : app :=
  MkApp (user st) (isAuthModalOpen st) (email st) (isAuthLoading st)
    (content st) (selectedMode st) (paraphraseStyle st) (analysis st) v
    (isPickyMode st) (toast st) (isStyleMenuOpen st) (isHistoryOpen st)
    (historyItems st) (storage st) (effects st).

Definition set_isPickyMode (v : bool) (st : app) : app :=
  MkApp (user st) (isAuthModalOpen st) (email st) (isAuthLoading st)
    (content st) (selectedMode st) (paraphraseStyle st) (analysis st)
    (isLoading st) v (toast st) (isStyleMenuOpen st) (isHistoryOpen st)
    (historyItems st) (storage st) (effects st).

Definition set_toast (v : option (jsstring * toast_type)) (st : app) : app :=
  MkApp (user st) (isAuthModalOpen st) (email st) (isAuthLoading st)
    (content st) (selectedMode st) (paraphraseStyle st) (analysis st)
    (isLoading st) (isPickyMode st) v (isStyleMenuOpen st) (isHistoryOpen
    st) (historyItems st) (storage st) (effects st).

Definition set_isStyleMenuOpen (v : bool) (st : app) : app :=
  MkApp (user st) (isAuthModalOpen st) (email st) (isAuthLoading st)
    (content st) (selectedMode st) (paraphraseStyle st) (analysis st)
    (isLoading st) (isPickyMode st) (toast st) v (isHistoryOpen st)
    (historyItems st) (storage st) (effects st).

Definition set_isHistoryOpen (v : bool) (st : app) : app :=
  MkApp (user st) (isAuthModalOpen st) (email st) (isAuthLoading st)
    (content st) (selectedMode st) (paraphraseStyle st) (analysis st)
    (isLoading st) (isPickyMode st) (toast st) (isStyleMenuOpen st) v
    (historyItems st) (storage st) (effects st).

Definition set_historyItems (v : list HistoryEntry) (st : app) : app :=
  MkApp (user st) (isAuthModalOpen st) (email st) (isAuthLoading st)
    (content st) (selectedMode st) (paraphraseStyle st) (analysis st)
    (isLoading st) (isPickyMode st) (toast st) (isStyleMenuOpen st)
    (isHistoryOpen st) v (storage st) (effects st).

Definition set_storage (v : stored) (st : app) : app :=
  MkApp (user st) (isAuthModalOpen st) (email st) (isAuthLoading st)
    (content st) (selectedMode st) (paraphraseStyle st) (analysis st)
    (isLoading st) (isPickyMode st) (toast st) (isStyleMenuOpen st)
    (isHistoryOpen st) (historyItems st) v (effects st).

Definition set_effects (v : list effect) (st : app) : app :=
  MkApp (user st) (isAuthModalOpen st) (email st) (isAuthLoading st)
    (content st) (selectedMode st) (paraphraseStyle st) (analysis st)
    (isLoading st) (isPickyMode st) (toast st) (isStyleMenuOpen st)
    (isHistoryOpen st) (historyItems st) (storage st) v.

(** [showToast(message, type)]. The timer that clears the toast after 2.5
    seconds is left out. *)
Definition showToast (message : jsstring) (type : toast_type) (st : app)
  : app :=
  set_toast (Some (message, type)) st.

Definition emit (e : effect) (st : app) : app :=
  set_effects (effects st ++ [e]) st.

(** [x || d] for [x] a string or [undefined]. *)
Definition or_else (x : option jsstring) (d : jsstring) : jsstring :=
  if truthy_opt x then text_of x else d.

(** [const isAuthenticated = !!user] *)
Definition isAuthenticated (st : app) : bool :=
  match user st with Some _ => true | None => false end.

(** The state [App] starts in, with what the store holds. *)
Definition initial (s : stored) : app :=
  MkApp None false [] false [] CORRECTION (js "normal") None false false
    None false false [] s [].

(** *** Styles *)

Definition updateStyleSecurely (style : jsstring) (st : app) : app :=
  if includes STYLE_WHITELIST style then
    showToast (js "Paraphrase style set to " ++ style) info
      (set_isStyleMenuOpen false (set_paraphraseStyle style st))
  else
    set_paraphraseStyle (js "normal") (emit ConsoleWarn st).

Definition handleModeSelect (mode : WritingMode) (st : app) : app :=
  let st1 := set_selectedMode mode st in
  let newStyle :=
    match lookup (mode_value mode) styleMap with
    | Some s => if truthy s then s else js "normal"
    | None => js "normal"
    end in
  updateStyleSecurely newStyle st1.

(** *** The history *)

(** [JSON.parse(localStorage.getItem(storageKey) || '[]')]; [None] when it
    throws. *)
Definition parse_saved (s : stored) : option (list HistoryEntry) :=
  match s with
  | Absent => Some []
  | Unparsable => None
  | Saved l => Some l
  end.

(** [saved.sort((a, b) => b.id - a.id)]: the entries by falling [id], those
    of the same [id] in the order they had. *)
Fixpoint insert_desc (x : HistoryEntry) (l : list HistoryEntry)
  : list HistoryEntry :=
  match l with
  | [] => [x]
  | y :: l' =>
      if (id y <=? id x)%Z then x :: y :: l' else y :: insert_desc x l'
  end.

Fixpoint sort_desc (l : list HistoryEntry) : list HistoryEntry :=
  match l with
  | [] => []
  | x :: l' => insert_desc x (sort_desc l')
  end.

Definition fetchHistory (st : app) : app :=
  match parse_saved (storage st) with
  | Some saved => set_historyItems (sort_desc saved) st
  | None => set_historyItems [] st
  end.

Definition deleteFromHistory (id0 : Z) (st : app) : app :=
  match parse_saved (storage st) with
  | Some existingSaves =>
      let updatedSaves :=
        filter (fun item => negb (id item =? id0)%Z) existingSaves in
      showToast (js "Item removed from history") info
        (fetchHistory (set_storage (Saved updatedSaves) st))
  | None => showToast (js "Failed to delete item") info st
  end.

Definition loadFromHistory (item : HistoryEntry) (st : app) : app :=
  showToast (js "Loaded from history") success
    (set_isHistoryOpen false (set_analysis None (set_content (text item) st))).

(** *** The toolbar *)

(** [analysis?.corrected_text], [undefined] without an analysis. *)
Definition corrected_of (st : app) : option jsstring :=
  option_map corrected_text (analysis st).

(** [analysis?.corrected_text || content] *)
Definition textToExport (st : app) : jsstring :=
  or_else (corrected_of st) (content st).

(** [handleToolbarAction(index)]. [now] is [Date.now()], [today] is
    [new Date().toLocaleDateString()], and [exported] tells whether the
    making of the file went without an exception. *)
Definition handleToolbarAction (now : Z) (today : jsstring) (exported : bool)
  (index : nat) (st : app) : app :=
  if existsb (Nat.eqb index) [1; 2; 3; 5] && negb (isAuthenticated st) then
    set_isAuthModalOpen true st
  else
    match index with
    | 0 =>
        if negb (truthy (trim (textToExport st)))
        then showToast (js "Nothing to copy") info st
        else showToast (js "Text copied to clipboard") success
               (emit (ClipboardWrite (textToExport st)) st)
    | 1 =>
        if negb (truthy (trim (textToExport st)))
        then showToast (js "No content to export") info st
        else if exported
        then showToast (js "PDF exported successfully") success
               (emit (PdfSave (textToExport st)) st)
        else showToast (js "Failed to generate PDF") info st
    | 2 =>
        if negb (truthy (trim (textToExport st)))
        then showToast (js "No content to download") info st
        else if exported
        then showToast (js "Downloaded as TXT") success
               (emit (TxtDownload (textToExport st)) st)
        else showToast (js "Failed to download TXT") info st
    | 3 =>
        let st1 := fetchHistory st in
        set_isHistoryOpen (negb (isHistoryOpen st)) st1
    | 4 =>
        showToast (js "Workspace cleared") info
          (set_analysis None (set_content [] st))
    | 5 =>
        if negb (truthy_opt (corrected_of st)) &&
           negb (truthy (trim (content st)))
        then showToast (js "Nothing to save") info st
        else
          match parse_saved (storage st) with
          | Some existingSaves =>
              let newSave := Entry now (textToExport st) today in
              showToast (js "Saved to history") success
                (set_storage (Saved (existingSaves ++ [newSave])) st)
          | None => showToast (js "Failed to save") info st
          end
    | _ => st
    end.

(** *** Grammar check and paraphrase *)

(** [!content.trim()] *)
Definition blank_content (st : app) : bool :=
  negb (truthy (trim (content st))).

(** How the call of [analyzeText] ends: with a result and what
    [(result as any).corrected] is, when it is a string, or with an
    exception. *)
Inductive outcome : Type :=
| resolved (corrected : option jsstring)
| rejected.

(** The click on "Check Grammar", up to the [await]. *)
Definition handleCheckGrammar_start (st : app) : app :=
  if blank_content st then st
  else
    emit (AnalyzeRequest (content st) (js "grammar") (paraphraseStyle st))
      (set_isLoading true st).

(** What the handler does when the call ends; [style] is the
    [paraphraseStyle] of the render in which the button was clicked, [st]
    the state at the time the call ends. *)
Definition handleCheckGrammar_end (style : jsstring) (o : outcome) (st : app)
  : app :=
  let st1 :=
    match o with
    | resolved corrected =>
        let prev := analysis st in
        showToast (js "Grammar check completed") success
          (set_analysis
             (Some (Analysis (js "auto") (or_else corrected [])
                      (or_else (option_map paraphrase prev) []) [] style))
             st)
    | rejected =>
        showToast (js "Service currently unavailable") info
          (emit ConsoleError st)
    end in
  set_isLoading false st1.

Definition handleParaphrase_start (st : app) : app :=
  if blank_content st then st
  else
    emit (AnalyzeRequest (content st) (js "paraphrase") (paraphraseStyle st))
      (set_isLoading true st).

Definition handleParaphrase_end (style : jsstring) (o : outcome) (st : app)
  : app :=
  let st1 :=
    match o with
    | resolved corrected =>
        let prev := analysis st in
        showToast (js "Paraphrase completed (" ++ style ++ js ")") success
          (set_analysis
             (Some (Analysis
                      (or_else (option_map detected_language prev)
                         (js "auto"))
                      (or_else (option_map corrected_text prev) [])
                      (or_else corrected []) [] style))
             st)
    | rejected =>
        showToast (js "Service currently unavailable") info
          (emit ConsoleError st)
    end in
  set_isLoading false st1.

(** *** What is shown *)

(** [<Sidebar analysis={analysis} originalText={content}
    isLoading={isLoading} ... />] *)
Definition sidebar (st : app) : option view :=
  Sidebar (analysis st) (Some (content st)) (isLoading st).

(** [onApply]: the click on "Apply Improvements" in the sidebar. *)
Definition applyImprovements (st : app) : app :=
  match analysis st with
  | Some a =>
      showToast (js "Improvements applied!") success
        (set_content (corrected_text a) st)
  | None => st
  end.

(** *** Signing up *)

(** [email.includes('@')] *)
Definition includes_at (s : jsstring) : bool := existsb (N.eqb 64) s.

(** [!email.trim() || !email.includes('@')] *)
Definition invalid_email (s : jsstring) : bool :=
  negb (truthy (trim s)) || negb (includes_at s).

(** The submission of the form, up to the [await]. *)
Definition handleSignup_start (st : app) : app :=
  if invalid_email (email st) then
    showToast (js "Please enter a valid email") info st
  else
    emit (SignupRequest (trim (email st))) (set_isAuthLoading true st).

(** What the handler does when the request ends; [e] is [email.trim()] for
    the [email] of the render in which the form was submitted, [ok] tells
    whether a response came and was [ok]. *)
Definition handleSignup_end (e : jsstring) (ok : bool) (st : app) : app :=
  let st1 :=
    if ok then
      set_email []
        (set_isAuthModalOpen false
           (set_user (Some (with_email e))
              (showToast (js "Successfully signed up!") success st)))
    else
      emit ConsoleError
        (showToast (js "Error connecting to service") info st) in
  set_isAuthLoading false st1.

(** *** The events of the page *)

(** [handleCopy] of the sidebar. *)
Definition handleCopy (st : app) : app :=
  if truthy_opt (corrected_of st)
  then emit (ClipboardWrite (text_of (corrected_of st))) st
  else st.

(** The handlers the page binds to its elements, those of the timers and of
    the requests that end. *)
Inductive event : Type :=
| OpenAuth
| CloseAuth
| TypeEmail (v : jsstring)
| SubmitSignup
| SignupEnds (e : jsstring) (ok : bool)
| DemoLogin
| TogglePicky
| Toolbar (now : Z) (today : jsstring) (exported : bool) (index : nat)
| LoadItem (item : HistoryEntry)
| DeleteItem (id0 : Z)
| Edit (v : jsstring)
| ClearAll
| Apply
| CopyCorrected
| CheckGrammar
| CheckGrammarEnds (style : jsstring) (o : outcome)
| Paraphrase
| ParaphraseEnds (style : jsstring) (o : outcome)
| ToggleStyleMenu
| PickStyle (style : jsstring)
| ModeSelect (mode : WritingMode)
| ClickOutsideHistory
| ClickOutsideStyleMenu
| ToastTimeout.

Definition entry_eqb (a b : HistoryEntry) : bool :=
  (id a =? id b)%Z && str_eqb (text a) (text b) && str_eqb (date a) (date b).

(** A request for an analysis in the given mode and tone was sent. *)
Definition analysis_pending (mode style : jsstring) (st : app) : bool :=
  existsb (fun ef =>
             match ef with
             | AnalyzeRequest _ m t => str_eqb m mode && str_eqb t style
             | _ => false
             end) (effects st).

Definition signup_pending (e : jsstring) (st : app) : bool :=
  existsb (fun ef =>
             match ef with
             | SignupRequest e' => str_eqb e' e
             | _ => false
             end) (effects st).

(** Whether the event can happen: the element it is bound to is rendered,
    the request that ends was sent. *)
Definition enabled (ev : event) (st : app) : bool :=
  match ev with
  | CloseAuth | TypeEmail _ | SubmitSignup | DemoLogin => isAuthModalOpen st
  | SignupEnds e _ => signup_pending e st
  | LoadItem item =>
      isHistoryOpen st && existsb (entry_eqb item) (historyItems st)
  | DeleteItem id0 =>
      isHistoryOpen st &&
      existsb (fun item => (id item =? id0)%Z) (historyItems st)
  | Apply | CopyCorrected =>
      negb (isLoading st) &&
      match analysis st with Some _ => true | None => false end
  | CheckGrammarEnds style _ => analysis_pending (js "grammar") style st
  | ParaphraseEnds style _ => analysis_pending (js "paraphrase") style st
  | _ => true
  end.

Definition handle (ev : event) (st : app) : app :=
  match ev with
  | OpenAuth => set_isAuthModalOpen true st
  | CloseAuth => set_isAuthModalOpen false st
  | TypeEmail v => set_email v st
  | SubmitSignup => handleSignup_start st
  | SignupEnds e ok => handleSignup_end e ok st
  | DemoLogin =>
      showToast (js "Welcome back!") success
        (set_isAuthModalOpen false
           (set_user (Some (with_name (js "Demo User"))) st))
  | TogglePicky =>
      showToast
        (if isPickyMode st then js "Picky mode disabled"
         else js "Picky mode enabled") success
        (set_isPickyMode (negb (isPickyMode st)) st)
  | Toolbar now today exported index =>
      handleToolbarAction now today exported index st
  | LoadItem item => loadFromHistory item st
  | DeleteItem id0 => deleteFromHistory id0 st
  | Edit v => set_content v st
  | ClearAll =>
      showToast (js "Workspace cleared") info
        (set_analysis None (set_content [] st))
  | Apply => applyImprovements st
  | CopyCorrected => handleCopy st
  | CheckGrammar => handleCheckGrammar_start st
  | CheckGrammarEnds style o => handleCheckGrammar_end style o st
  | Paraphrase => handleParaphrase_start st
  | ParaphraseEnds style o => handleParaphrase_end style o st
  | ToggleStyleMenu => set_isStyleMenuOpen (negb (isStyleMenuOpen st)) st
  | PickStyle style => updateStyleSecurely style st
  | ModeSelect mode => handleModeSelect mode st
  | ClickOutsideHistory => set_isHistoryOpen false st
  | ClickOutsideStyleMenu => set_isStyleMenuOpen false st
  | ToastTimeout => set_toast None st
  end.

(** The state after the events, [None] if one of them cannot happen. *)
Fixpoint run (evs : list event) (st : app) : option app :=
  match evs with
  | [] => Some st
  | ev :: evs' => if enabled ev st then run evs' (handle ev st) else None
  end.

End App.

(** ** Notions for the rest of the code *)

(** The lines with a line feed between them. *)
Fixpoint join_lines (l : list jsstring) : jsstring :=
  match l with
  | [] => []
  | x :: l' =>
      match l' with
      | [] => x
      | _ :: _ => x ++ 10%N :: join_lines l'
      end
  end.

(** States to try the properties on: a text typed into the editor, and the
    same with the result of a grammar check. *)
Definition sample_typed : App.app :=
  App.set_content (js "It are fine") (App.initial App.Absent).

Definition sample_analysis : AnalysisResponse :=
  Analysis (js "auto") (js "It is fine") [] [] (js "normal").

Definition sample_checked : App.app :=
  App.set_analysis (Some sample_analysis) sample_typed.



(** *** What holds in every state of the page *)

Section PageInvariant.

Import App.

(** A request that may be sent: an analysis of a text that is not blank, in
    one of the two modes and in a style of the list; a signup with an
    address that is not empty and has an at sign. *)
Definition request_ok (ef : effect) : Prop :=
  match ef with
  | AnalyzeRequest t m tn =>
      truthy (trim t) = true /\
      (m = js "grammar" \/ m = js "paraphrase") /\
      In tn STYLE_WHITELIST
  | SignupRequest e => truthy e = true /\ includes_at e = true
  | _ => True
  end.

(** A signup is sent with an address that [trim] leaves as it is. *)
Definition trimmed_request (ef : effect) : Prop :=
  match ef with
  | SignupRequest e => trim e = e
  | _ => True
  end.

(** An effect that is not the export of a file. *)
Definition no_export (ef : effect) : Prop :=
  match ef with
  | PdfSave _ | TxtDownload _ => False
  | _ => True
  end.

(** [s] is what the store held when the page was opened. *)
Definition page_inv (s : stored) (st : app) : Prop :=
  In (paraphraseStyle st) STYLE_WHITELIST /\
  Forall request_ok (effects st) /\
  (forall a, analysis st = Some a -> In (tone a) STYLE_WHITELIST) /\
  (isAuthenticated st = false ->
   storage st = s /\ isHistoryOpen st = false /\ historyItems st = [] /\
   Forall no_export (effects st)) /\
  (forall e, user st = Some (with_email e) ->
     truthy e = true /\ includes_at e = true /\
     In (SignupRequest e) (effects st)).

End PageInvariant.

(** A visit of the page to try the properties on: a text is typed and
    checked, an address is typed and the signup succeeds, the result is
    saved and the history opened. *)
Definition sample_visit : list App.event :=
  [App.Edit (js "It are fine");
   App.PickStyle (js "friendly");
   App.CheckGrammar;
   App.CheckGrammarEnds (js "friendly")
     (App.resolved (Some (js "It is fine")));
   App.Toolbar 1%Z (js "1/1/2026") true 5;
   App.TypeEmail (js " me@example.org ");
   App.SubmitSignup;
   App.SignupEnds (js "me@example.org") true;
   App.Toolbar 2%Z (js "1/1/2026") true 5;
   App.Toolbar 3%Z (js "1/1/2026") true 3].

(** The visit up to the first click on "Save to History", before signing
    up. *)
Definition sample_guest_visit : list App.event := firstn 5 sample_visit.

(** The order of the history: [b] may come after [a]. *)
Definition newer_first (a b : App.HistoryEntry) : Prop :=
  (App.id b <= App.id a)%Z.


(** ** The server *)

Module Server.

Section Json.

(** What the handlers read of the values of JSON, which are of type [any]:
    whether a value is truthy, whether it is [null], the property of a name
    of a value that is not [null] ([None] for [undefined]), the string
    [new Error(v)] makes of a value, and the message of the [TypeError] of
    reading a property of [null] or [undefined]. *)
Variable json : Type.
Variable json_truthy : json -> bool.
Variable is_null : json -> bool.
Variable get : jsstring -> json -> option json.
Variable to_string : json -> jsstring.
Variable type_error : option jsstring.

(** How [response.json()] ends: rejected, with the [message] of the error
    if it has one, or with a value. *)
Inductive body_result : Type :=
| unreadable (message : option jsstring)
| body (v : json).

(** How [fetch] ends: rejected, or with a response. *)
Inductive fetch_result : Type :=
| fetch_rejected (message : option jsstring)
| response (ok : bool) (status : nat) (b : body_result).

(** [tone: payload.tone || "neutral"] *)
Inductive tone_sent : Type :=
| tone_given (v : json)
| neutral.

(** The body of the request to the worker. *)
Record request : Type := Request {
  req_text : option json;
  req_mode : option json;
  req_tone : tone_sent
}.

(** A value returned, or an [Error] thrown with its message. *)
Inductive result (A : Type) : Type :=
| returns (a : A)
| throws (message : jsstring).

Arguments returns {A} a.
Arguments throws {A} message.

(** What is thrown inside a [try]: the [message] of the error, if it has
    one. *)
Definition attempt (A : Type) : Type := (A + option jsstring)%type.

(** [`API request failed with status ${response.status}`] *)
Definition status_message (status : nat) : jsstring :=
  js "API request failed with status " ++ js (dec status).

Definition invalid_format : jsstring :=
  js "Invalid response format: 'corrected' field missing".

Definition unavailable : jsstring :=
  js "The writing assistant service is currently unavailable. Please try again later.".

(** The [try] block of [secureAnalyzeHandler]; [payload] is [None] for
    [undefined], [worker] tells how the [fetch] of a request ends. *)
Definition secureAnalyzeHandler_try (payload : option json)
  (worker : request -> fetch_result) : attempt json :=
  match payload with
  | None => inr type_error
  | Some p =>
      if is_null p then inr type_error
      else
        let tone :=
          match get (js "tone") p with
          | Some t => if json_truthy t then tone_given t else neutral
          | None => neutral
          end in
        match worker (Request (get (js "text") p) (get (js "mode") p) tone)
        with
        | fetch_rejected m => inr m
        | response ok status b =>
            if negb ok then
              match b with
              | unreadable _ => inr (Some (status_message status))
              | body errorData =>
                  if is_null errorData then inr type_error
                  else
                    match get (js "error") errorData with
                    | Some e =>
                        if json_truthy e then inr (Some (to_string e))
                        else inr (Some (status_message status))
                    | None => inr (Some (status_message status))
                    end
              end
            else
              match b with
              | unreadable m => inr m
              | body data =>
                  if negb (json_truthy data) then inr (Some invalid_format)
                  else
                    match get (js "corrected") data with
                    | None => inr (Some invalid_format)
                    | Some _ => inl data
                    end
              end
        end
  end.

(** [secureAnalyzeHandler(ip, payload)]; [ip] is not used. *)
Definition secureAnalyzeHandler (payload : option json)
  (worker : request -> fetch_result) : result json :=
  match secureAnalyzeHandler_try payload worker with
  | inl data => returns data
  | inr m => throws (if truthy_opt m then text_of m else unavailable)
  end.

(** What a route of the server answers. *)
Inductive answer : Type :=
| ok_json (data : json)
| ok_success
| bad_request (error : jsstring)
| server_error (error : jsstring).

(** [app.post("/api/analyze", ...)]; [req_body] is [req.body]. *)
Definition analyze_route (req_body : option json)
  (worker : request -> fetch_result) : answer :=
  match secureAnalyzeHandler req_body worker with
  | returns data => ok_json data
  | throws m =>
      server_error (if truthy m then m else js "Internal Server Error")
  end.

(** [app.post("/api/signup", ...)]; [worker] tells how the [fetch] of the
    signup of an address ends. *)
Definition signup_route (req_body : option json)
  (worker : json -> fetch_result) : answer :=
  let attempted : attempt answer :=
    match req_body with
    | None => inr type_error
    | Some b =>
        if is_null b then inr type_error
        else
          match get (js "email") b with
          | None => inl (bad_request (js "Email is required"))
          | Some email =>
              if negb (json_truthy email)
              then inl (bad_request (js "Email is required"))
              else
                match worker email with
                | fetch_rejected m => inr m
                | response ok _ _ =>
                    if negb ok then inr (Some (js "Worker signup failed"))
                    else inl ok_success
                end
          end
    end in
  match attempted with
  | inl a => a
  | inr m =>
      server_error
        (if truthy_opt m then text_of m else js "Internal Server Error")
  end.

End Json.

Arguments returns {A} a.
Arguments throws {A} message.
Arguments unreadable {json} message.
Arguments fetch_rejected {json} message.
Arguments neutral {json}.
Arguments ok_success {json}.
Arguments bad_request {json} error.
Arguments server_error {json} error.

End Server.

(** ** Tactics *)

Ltac walk_simpl :=
  cbn [andb];
  cbv [incr_i incr_j pushO pushC];
  cbn [i j originalSegments correctedSegments].

Ltac unfold_nodes :=
  repeat match goal with n := _ : node |- _ => subst n end.

Ltac turn_simpl :=
  cbn [i j originalSegments correctedSegments fst snd];
  rewrite ?skipn_app, ?skipn_all, ?Nat.sub_diag;
  cbn [ops_of_turn key_of children flat_map original_side revised_side
       map app fst snd In skipn].

Ltac in_cases :=
  repeat match goal with
  | H : _ \/ _ |- _ => destruct H
  | H : False |- _ => destruct H
  | H : @eq op _ _ |- _ => discriminate H || (injection H as H; subst)
  end.

Ltac same_tokens :=
  repeat match goal with
  | H : nth_error ?l ?n = Some _, H' : context [nth_error ?l ?n] |- _ =>
      rewrite H in H'
  end;
  cbn [blank truthy_opt] in *;
  repeat match goal with
  | H : Some _ = Some _ |- _ => injection H as H; subst
  | H : is_space_token _ = true |- _ =>
      unfold is_space_token in H; apply andb_prop in H; destruct H
  | H : truthy ?t = false |- _ => destruct t; [clear H | discriminate H]
  end.

(** * Properties *)

(** ** The tokens *)

Section Tokens.

Lemma truthy_true (s : jsstring) : truthy s = true <-> s <> [].
Proof. destruct s; simpl; split; congruence. Qed.

Lemma str_eqb_spec (a b : jsstring) : reflect (a = b) (str_eqb a b).
Proof.
  revert b; induction a as [|x a IH]; intros [|y b]; simpl;
    try (constructor; congruence).
  destruct (N.eqb_spec x y) as [->|Hxy]; simpl.
  - destruct (IH b) as [->|Hab]; constructor; congruence.
  - constructor; congruence.
Qed.

Lemma strict_eq_spec (o c : option jsstring) : reflect (o = c) (strict_eq o c).
Proof.
  destruct o as [a|], c as [b|]; simpl; try (constructor; congruence).
  destruct (str_eqb_spec a b); constructor; congruence.
Qed.

Lemma split_from_concat (s piece : jsstring) (in_sep : bool) :
  concat (split_from piece in_sep s) = piece ++ s.
Proof.
  revert piece in_sep; induction s as [|c s IH]; intros piece in_sep; simpl.
  - destruct in_sep; simpl; now rewrite ?app_nil_r.
  - destruct (is_space c), in_sep; simpl; rewrite IH; simpl;
      now rewrite <- ?app_assoc.
Qed.

Lemma concat_filter_truthy (l : list jsstring) :
  concat (filter truthy l) = concat l.
Proof.
  induction l as [|[|x t] l IH]; simpl; trivial.
  now rewrite IH.
Qed.

Lemma words_concat (s : jsstring) : concat (words s) = s.
Proof.
  unfold words, split_space.
  now rewrite concat_filter_truthy, split_from_concat.
Qed.

Lemma words_truthy (s : jsstring) : Forall (fun t => truthy t = true) (words s).
Proof. apply Forall_forall; intros t Ht; apply filter_In in Ht; tauto. Qed.

Lemma split_from_alt (s piece : jsstring) (k : bool) :
  piece <> [] -> Forall (fun c => is_space c = k) piece ->
  alt k (filter truthy (split_from piece k s)).
Proof.
  revert piece k; induction s as [|c s IH]; intros piece k Hne Hk.
  - assert (truthy piece = true) as Hp by now apply truthy_true.
    destruct k; simpl; rewrite Hp; simpl; auto.
  - assert (truthy piece = true) as Hp by now apply truthy_true.
    simpl; destruct (is_space c) eqn:Hc, k; simpl; rewrite ?Hp; simpl.
    + apply IH; [now destruct piece|].
      apply Forall_app; split; auto.
    + repeat split; auto. apply (IH [c] true); [discriminate|auto].
    + repeat split; auto. apply (IH [c] false); [discriminate|auto].
    + apply IH; [now destruct piece|].
      apply Forall_app; split; auto.
Qed.

Lemma words_alt (s : jsstring) : exists k, alt k (words s).
Proof.
  destruct s as [|c s]; [exists false; exact I|].
  exists (is_space c).
  unfold words, split_space; simpl.
  destruct (is_space c) eqn:Hc; simpl.
  - apply (split_from_alt s (piece := [c]) (k := true)); [discriminate|auto].
  - apply (split_from_alt s (piece := [c]) (k := false)); [discriminate|auto].
Qed.

Lemma forallb_kind (k : bool) (t : jsstring) :
  Forall (fun c => is_space c = k) t ->
  forallb (fun c => if k then is_space c else negb (is_space c)) t = true.
Proof.
  induction 1 as [|c t Hc _ IH]; simpl; trivial.
  rewrite IH, Hc; now destruct k.
Qed.

Lemma alt_kind (l : list jsstring) (k : bool) :
  alt k l ->
  Forall (fun t => is_space_token t = true \/ is_word_token t = true) l.
Proof.
  revert k; induction l as [|t l IH]; intros k H; constructor.
  - destruct H as (Hne & Hk & _).
    apply truthy_true in Hne.
    apply forallb_kind in Hk.
    unfold is_space_token, is_word_token; rewrite Hne; simpl.
    destruct k; auto.
  - destruct H as (_ & _ & H); eauto.
Qed.

Lemma words_kind (s : jsstring) :
  Forall (fun t => is_space_token t = true \/ is_word_token t = true) (words s).
Proof. destruct (words_alt s) as [k H]; eapply alt_kind; eauto. Qed.

Lemma offset_S (l : list jsstring) (t : nat) :
  offset l (S t) = offset l t + List.length (nth t l []).
Proof.
  unfold offset; revert t; induction l as [|a l IH]; intros t.
  - destruct t; reflexivity.
  - destruct t as [|t]; simpl.
    + rewrite app_nil_r; reflexivity.
    + rewrite !length_app.
      specialize (IH t); simpl in IH; rewrite IH; lia.
Qed.

Lemma offset_mono (l : list jsstring) (t u : nat) :
  t < u -> offset l t + List.length (nth t l []) <= offset l u.
Proof.
  induction 1 as [|u _ IH].
  - rewrite offset_S; lia.
  - rewrite (offset_S l u); lia.
Qed.

Lemma concat_locate (l : list jsstring) (p : nat) :
  p < List.length (concat l) ->
  exists t q,
    t < List.length l /\ q < List.length (nth t l []) /\
    offset l t + q = p /\
    nth_error (nth t l []) q = nth_error (concat l) p.
Proof.
  revert p; induction l as [|a l IH]; intros p Hp; simpl in Hp; [lia|].
  rewrite length_app in Hp.
  destruct (Nat.lt_ge_cases p (List.length a)) as [Hlt|Hge].
  - exists 0, p; simpl; repeat split; try lia.
    now rewrite nth_error_app1.
  - destruct (IH (p - List.length a)) as (t & q & Ht & Hq & Hoff & Hnth);
      [lia|].
    exists (S t), q; cbn [nth List.length concat]; repeat split; try lia.
    + unfold offset in *; cbn [firstn concat]; rewrite length_app; lia.
    + rewrite nth_error_app2 by lia; exact Hnth.
Qed.

Lemma locate_unique (l : list jsstring) (t q t' q' : nat) :
  q < List.length (nth t l []) -> q' < List.length (nth t' l []) ->
  offset l t + q = offset l t' + q' ->
  t = t' /\ q = q'.
Proof.
  intros Hq Hq' E.
  destruct (Nat.lt_trichotomy t t') as [H|[H|H]].
  - pose proof (offset_mono l H); lia.
  - subst; lia.
  - pose proof (offset_mono l H); lia.
Qed.

End Tokens.

(** ** What [trim] and the test for white space decide *)

Section Trim.

Lemma trim_start_nil (s : jsstring) :
  trim_start s = [] <-> forallb is_space s = true.
Proof.
  induction s as [|c s IH]; simpl; [tauto|].
  destruct (is_space c); simpl; [exact IH|].
  split; discriminate.
Qed.

Lemma trim_start_all (s : jsstring) :
  forallb is_space (trim_start s) = true -> trim_start s = [].
Proof.
  induction s as [|c s IH]; simpl; trivial.
  destruct (is_space c) eqn:Hc; trivial.
  simpl; rewrite Hc; discriminate.
Qed.

Lemma forallb_rev (f : code_unit -> bool) (s : jsstring) :
  forallb f (rev s) = forallb f s.
Proof.
  induction s as [|c s IH]; simpl; trivial.
  rewrite forallb_app, IH; simpl.
  rewrite andb_true_r; apply andb_comm.
Qed.

(** [s.trim()] is truthy exactly when [s] has a character that is not
    white space. *)
Lemma trim_truthy (s : jsstring) :
  truthy (trim s) = negb (forallb is_space s).
Proof.
  unfold trim.
  destruct (forallb is_space s) eqn:Hs; simpl.
  - apply trim_start_nil in Hs; rewrite Hs; reflexivity.
  - apply truthy_true; intros E.
    apply (f_equal (@rev code_unit)) in E; rewrite rev_involutive in E.
    simpl in E; apply trim_start_nil in E.
    rewrite forallb_rev in E.
    apply trim_start_all, trim_start_nil in E; congruence.
Qed.

Lemma trim_opt_truthy (x : option jsstring) :
  truthy_opt (option_map trim x) =
  match x with Some t => negb (forallb is_space t) | None => false end.
Proof. destruct x; simpl; [apply trim_truthy | reflexivity]. Qed.

End Trim.

(** ** The turns of the loop, case by case *)

Section Walk.

Variables wordsO wordsC : list jsstring.

Local Abbreviation cond := (Diff.cond wordsO wordsC).
Local Abbreviation body := (Diff.body wordsO wordsC).
Local Abbreviation while := (Diff.while wordsO wordsC).
Local Abbreviation turns := (Diff.turns wordsO wordsC).
Local Abbreviation emitted := (Diff.emitted wordsO wordsC).
Local Abbreviation Step := (Step wordsO wordsC).
Local Abbreviation inv_text := (inv_text wordsO wordsC).
Local Abbreviation inv_node := (inv_node wordsO wordsC).

Lemma cond_true (st : state) :
  cond st = true <->
  i st < List.length wordsO \/ j st < List.length wordsC.
Proof.
  unfold Diff.cond; rewrite orb_true_iff, !Nat.ltb_lt; tauto.
Qed.

Lemma cond_false (st : state) :
  cond st = false <->
  List.length wordsO <= i st /\ List.length wordsC <= j st.
Proof.
  unfold Diff.cond; rewrite orb_false_iff, !Nat.ltb_ge; tauto.
Qed.

(** Every turn of the loop is one of the cases. *)
Lemma body_Step (st : state) : cond st = true -> Step st (body st).
Proof.
  intros Hc; apply cond_true in Hc.
  unfold Diff.body.
  destruct (strict_eq_spec (nth_error wordsO (i st)) (nth_error wordsC (j st)))
    as [E|NE].
  - destruct (nth_error wordsO (i st)) as [t|] eqn:Ho.
    + symmetry in E. walk_simpl. exact (step_match wordsO wordsC st Ho E).
    + symmetry in E.
      apply nth_error_None in Ho, E; lia.
  - rewrite !trim_opt_truthy.
    destruct (nth_error wordsO (i st)) as [o|] eqn:Ho;
      destruct (nth_error wordsC (j st)) as [c|] eqn:Hc'; try congruence;
      cbn [text_of truthy_opt]; unfold test_all_space.
    + destruct (forallb is_space o) eqn:So, (forallb is_space c) eqn:Sc;
        cbn [negb andb]; rewrite ?andb_true_r.
      * destruct (truthy o) eqn:To, (truthy c) eqn:Tc; walk_simpl.
        -- apply (step_ws_both wordsO wordsC st Ho Hc'); unfold is_space_token;
             rewrite ?To, ?Tc, ?So, ?Sc; try reflexivity; congruence.
        -- apply (step_ws_o wordsO wordsC st Ho); unfold is_space_token;
             rewrite ?To, ?So, ?Hc'; auto.
        -- apply (fun H => @step_ws_c wordsO wordsC st c H Hc'); unfold is_space_token;
             rewrite ?Tc, ?Sc, ?Ho; auto.
        -- apply step_stuck; rewrite ?Ho, ?Hc'; auto.
      * walk_simpl; apply (fun H => @step_insert wordsO wordsC st c H Hc'); rewrite ?Ho; simpl; trivial; congruence.
      * walk_simpl; apply (step_delete wordsO wordsC st Ho); rewrite ?Hc'; simpl; trivial; congruence.
      * walk_simpl; apply (step_subst wordsO wordsC st Ho Hc'); congruence.
    + destruct (forallb is_space o) eqn:So; cbn [negb andb];
        rewrite ?andb_true_r.
      * destruct (truthy o) eqn:To; walk_simpl.
        -- apply (step_ws_o wordsO wordsC st Ho); unfold is_space_token;
             rewrite ?To, ?So, ?Hc'; auto.
        -- apply step_stuck; rewrite ?Ho, ?Hc'; auto.
      * walk_simpl; apply (step_delete wordsO wordsC st Ho); rewrite ?Hc'; simpl; trivial; congruence.
    + destruct (forallb is_space c) eqn:Sc; cbn [negb andb];
        rewrite ?andb_true_r.
      * destruct (truthy c) eqn:Tc; walk_simpl.
        -- apply (fun H => @step_ws_c wordsO wordsC st c H Hc'); unfold is_space_token;
             rewrite ?Tc, ?Sc, ?Ho; auto.
        -- apply step_stuck; rewrite ?Ho, ?Hc'; auto.
      * walk_simpl; apply (fun H => @step_insert wordsO wordsC st c H Hc'); rewrite ?Ho; simpl; trivial; congruence.
Qed.

(** *** Invariants of the loop *)

Lemma while_inv (P : state -> Prop) :
  (forall st st', P st -> cond st = true -> Step st st' -> P st') ->
  forall fuel st st',
    P st -> while fuel st = Some st' -> P st' /\ cond st' = false.
Proof.
  intros HP; induction fuel as [|fuel IH]; intros st st' Hst; simpl;
    destruct (cond st) eqn:Hc; try discriminate.
  - intros [= <-]; auto.
  - intros H; apply (IH (body st)); auto.
    apply (HP st); auto using body_Step.
  - intros [= <-]; auto.
Qed.

Lemma while_fuel_mono (fuel fuel' : nat) (st st' : state) :
  while fuel st = Some st' -> fuel <= fuel' -> while fuel' st = Some st'.
Proof.
  revert fuel' st; induction fuel as [|fuel IH]; intros fuel' st; simpl;
    destruct (cond st) eqn:Hc; try discriminate; intros H Hle.
  - destruct fuel'; simpl; rewrite Hc; exact H.
  - destruct fuel' as [|fuel']; [lia|].
    simpl; rewrite Hc; apply IH; [exact H | lia].
  - destruct fuel'; simpl; rewrite Hc; exact H.
Qed.

Lemma nth_error_lt (l : list jsstring) (n : nat) (t : jsstring) :
  nth_error l n = Some t -> n < List.length l.
Proof. intros H; apply nth_error_Some; congruence. Qed.

Lemma firstn_snoc (l : list jsstring) (n : nat) (t : jsstring) :
  nth_error l n = Some t -> firstn (S n) l = firstn n l ++ [t].
Proof.
  revert n; induction l as [|a l IH]; intros [|n]; simpl; try discriminate.
  - now intros [= ->].
  - intros H; now rewrite <- IH.
Qed.

(** *** Progress *)

Section NonEmpty.

Hypothesis truthyO : Forall (fun t => truthy t = true) wordsO.
Hypothesis truthyC : Forall (fun t => truthy t = true) wordsC.

Lemma falsy_past_end (l : list jsstring) (n : nat) :
  Forall (fun t => truthy t = true) l ->
  truthy_opt (nth_error l n) = false -> List.length l <= n.
Proof.
  intros Hl H.
  destruct (nth_error l n) as [t|] eqn:E.
  - apply nth_error_In in E.
    rewrite Forall_forall in Hl; apply Hl in E.
    simpl in H; congruence.
  - now apply nth_error_None.
Qed.

(** A turn taken while the condition holds moves [i] or [j] forward, and
    neither goes past the end of its array. *)
Lemma Step_progress (st st' : state) :
  cond st = true -> Step st st' ->
  i st <= i st' /\ j st <= j st' /\ i st + j st < i st' + j st' /\
  i st' <= Nat.max (i st) (List.length wordsO) /\
  j st' <= Nat.max (j st) (List.length wordsC).
Proof.
  intros Hc H; destruct H; cbn [i j];
    repeat match goal with
    | H : nth_error _ _ = Some _ |- _ => apply nth_error_lt in H
    | H : truthy_opt (nth_error _ _) = false |- _ =>
        apply falsy_past_end in H; [|assumption]
    end; try lia.
  apply cond_true in Hc; lia.
Qed.

Lemma Step_measure (st st' : state) :
  cond st = true -> Step st st' ->
  measure wordsO wordsC st' < measure wordsO wordsC st.
Proof.
  intros Hc H; unfold measure.
  pose proof (proj1 (cond_true st) Hc).
  destruct H; cbn [i j];
    repeat match goal with
    | H : nth_error _ _ = Some _ |- _ => apply nth_error_lt in H
    | H : truthy_opt (nth_error _ _) = false |- _ =>
        apply falsy_past_end in H; [|assumption]
    end; lia.
Qed.

Lemma while_total (fuel : nat) (st : state) :
  measure wordsO wordsC st <= fuel -> exists st', while fuel st = Some st'.
Proof.
  revert st; induction fuel as [|fuel IH]; intros st Hm; simpl;
    destruct (cond st) eqn:Hc; eauto.
  - apply cond_true in Hc; unfold measure in Hm; lia.
  - apply IH.
    pose proof (Step_measure Hc (body_Step st Hc)); lia.
Qed.

End NonEmpty.

(** *** What holds of the spans pushed so far *)

Lemma inv_text_Step (st st' : state) :
  inv_text st -> cond st = true -> Step st st' -> inv_text st'.
Proof.
  intros [HO HC] _ H; unfold inv_text.
  destruct H; cbn [i j originalSegments correctedSegments];
    rewrite ?map_app, ?HO, ?HC; cbn [map children];
    split; trivial; symmetry; now apply firstn_snoc.
Qed.

Lemma inv_node_Step (st st' : state) :
  inv_node st -> cond st = true -> Step st st' -> inv_node st'.
Proof.
  intros [HO HC] _ H; unfold inv_node.
  destruct H; cbn [i j originalSegments correctedSegments];
    split; trivial; apply Forall_app; split; trivial;
    repeat constructor; cbn; auto.
Qed.

Lemma inv_index_Step (st st' : state) :
  inv_index st -> cond st = true -> Step st st' -> inv_index st'.
Proof.
  intros [HO HC] _ H; unfold inv_index.
  destruct H; cbn [i j originalSegments correctedSegments];
    rewrite ?map_app, ?HO, ?HC, ?seq_S; cbn; auto.
Qed.

Lemma inv_shared_Step (st st' : state) :
  inv_shared st -> cond st = true -> Step st st' -> inv_shared st'.
Proof.
  unfold inv_shared; intros HP _ H.
  destruct H; cbn [i j originalSegments correctedSegments];
    rewrite ?filter_app, ?HP; cbn; now rewrite ?app_nil_r.
Qed.

(** At the end both arrays have been read to their end. *)
Lemma firstn_past (l : list jsstring) (n : nat) :
  List.length l <= n -> firstn n l = l.
Proof. apply firstn_all2. Qed.

Lemma while_text (fuel : nat) (st' : state) :
  while fuel init = Some st' ->
  map children (originalSegments st') = wordsO /\
  map children (correctedSegments st') = wordsC.
Proof.
  intros H.
  assert (inv_text init) as H0 by (split; reflexivity).
  destruct (@while_inv inv_text inv_text_Step fuel init st' H0 H)
    as [[HO HC] Hc].
  apply cond_false in Hc.
  rewrite !firstn_past in * by lia; auto.
Qed.

Lemma while_node (fuel : nat) (st' : state) :
  while fuel init = Some st' -> inv_node st'.
Proof.
  intros H.
  assert (inv_node init) as H0 by (split; constructor).
  apply (@while_inv inv_node inv_node_Step fuel init st' H0 H).
Qed.

Lemma while_index (fuel : nat) (st' : state) :
  while fuel init = Some st' ->
  map (fun n => orig_index (key_of n)) (originalSegments st') =
    seq 0 (List.length wordsO) /\
  map (fun n => corr_index (key_of n)) (correctedSegments st') =
    seq 0 (List.length wordsC).
Proof.
  intros H.
  pose proof (while_text fuel H) as [TO TC].
  assert (inv_index init) as H0 by (split; reflexivity).
  destruct (@while_inv inv_index inv_index_Step fuel init st' H0 H)
    as [[HO HC] _].
  apply (f_equal (@List.length _)) in HO as LO, HC as LC.
  apply (f_equal (@List.length _)) in TO, TC.
  rewrite length_map, length_seq in *.
  split; congruence.
Qed.

Lemma while_shared (fuel : nat) (st' : state) :
  while fuel init = Some st' -> inv_shared st'.
Proof.
  intros H.
  assert (inv_shared init) as H0 by reflexivity.
  apply (@while_inv inv_shared inv_shared_Step fuel init st' H0 H).
Qed.

(** *** The spans and the operations of a turn *)

Lemma space_token_all (t : jsstring) :
  is_space_token t = true -> forallb is_space t = true.
Proof. unfold is_space_token; intros H; apply andb_prop in H; tauto. Qed.

Lemma Step_turn (st : state) :
  Step st (body st) ->
  originalSegments (body st) = originalSegments st ++ fst (emitted st) /\
  correctedSegments (body st) = correctedSegments st ++ snd (emitted st) /\
  flat_map original_side (ops_of_turn (emitted st)) =
    map children (fst (emitted st)) /\
  flat_map revised_side (ops_of_turn (emitted st)) =
    map children (snd (emitted st)) /\
  turn_facts wordsO wordsC st (ops_of_turn (emitted st)).
Proof.
  unfold turn_facts, Diff.emitted.
  remember (body st) as st' eqn:E; clear E.
  intros H; destruct H;
    unfold_nodes;
    turn_simpl; rewrite ?app_nil_r;
    repeat split; intros; in_cases; subst; trivial;
    match goal with
    | H : is_space_token ?t = true, H' : forallb is_space ?t = false |- _ =>
        apply space_token_all in H; congruence
    | _ => idtac
    end.
  all: intros E; rewrite E in *; cbn [blank truthy_opt] in *; try congruence.
  all: match goal with
       | H : is_space_token ?t = true |- _ =>
           unfold is_space_token in H; apply andb_prop in H; destruct H;
           congruence
       end.
Qed.

Lemma turns_cond (fuel : nat) (st s : state) :
  In s (turns fuel st) -> cond s = true.
Proof.
  revert st; induction fuel as [|fuel IH]; intros st; simpl;
    destruct (cond st) eqn:Hc; simpl; try tauto.
  intros [<-|H]; eauto.
Qed.

Lemma turns_facts (fuel : nat) (st : state) :
  Forall (fun s => turn_facts wordsO wordsC s (ops_of_turn (emitted s)))
    (turns fuel st).
Proof.
  apply Forall_forall; intros s Hs.
  apply turns_cond in Hs.
  apply Step_turn, body_Step, Hs.
Qed.

(** The output is what the turns pushed, in the order of the turns. *)
Lemma while_turns (fuel : nat) (st st' : state) :
  while fuel st = Some st' ->
  originalSegments st' =
    originalSegments st ++ flat_map (fun s => fst (emitted s)) (turns fuel st)
  /\
  correctedSegments st' =
    correctedSegments st ++ flat_map (fun s => snd (emitted s)) (turns fuel st).
Proof.
  revert st; induction fuel as [|fuel IH]; intros st;
    cbn [Diff.while Diff.turns];
    destruct (cond st) eqn:Hc; try discriminate; cbn [flat_map].
  - intros [= <-]; now rewrite !app_nil_r.
  - intros H; destruct (IH _ H) as [EO EC].
    destruct (Step_turn (body_Step st Hc)) as (AO & AC & _).
    cbn [flat_map]; rewrite EO, EC, AO, AC, <- !app_assoc; auto.
  - intros [= <-]; now rewrite !app_nil_r.
Qed.

(** The two halves of the operations of the turns are the texts of the
    spans of the two sides. *)
Lemma turns_sides (fuel : nat) (st : state) :
  let l := flat_map (fun s => ops_of_turn (emitted s)) (turns fuel st) in
  flat_map original_side l =
    map children (flat_map (fun s => fst (emitted s)) (turns fuel st)) /\
  flat_map revised_side l =
    map children (flat_map (fun s => snd (emitted s)) (turns fuel st)).
Proof.
  revert st; induction fuel as [|fuel IH]; intros st;
    cbn [Diff.turns]; destruct (cond st) eqn:Hc; cbn [flat_map map]; auto.
  destruct (Step_turn (body_Step st Hc)) as (_ & _ & SO & SC & _).
  destruct (IH (body st)) as [EO EC].
  rewrite !flat_map_app, !map_app, EO, EC, SO, SC; auto.
Qed.

Lemma turns_inv (P : state -> Prop) :
  (forall st st', P st -> cond st = true -> Step st st' -> P st') ->
  forall fuel st, P st -> Forall P (turns fuel st).
Proof.
  intros HP; induction fuel as [|fuel IH]; intros st Hst;
    cbn [Diff.turns]; destruct (cond st) eqn:Hc; constructor; trivial.
  apply IH, (HP st); auto using body_Step.
Qed.

(** *** The cases exclude one another *)

Lemma Step_functional (st s1 s2 : state) : Step st s1 -> Step st s2 -> s1 = s2.
Proof.
  intros H1 H2; destruct H1; destruct H2;
    unfold_nodes;
    same_tokens; cbn [forallb truthy] in *; congruence.
Qed.

(** A turn at which two different runs of white space face each other
    pushes each on its own side. *)
Lemma ws_mismatch_turn (st : state) (o c : jsstring) :
  nth_error wordsO (i st) = Some o ->
  nth_error wordsC (j st) = Some c ->
  is_space_token o = true -> is_space_token c = true -> o <> c ->
  emitted st = ([Span (ws_o (i st)) None o], [Span (ws_c (j st)) None c]) /\
  ops_of_turn (emitted st) = [Delete o; Insert c].
Proof.
  intros Ho Hc So Sc NE.
  assert (cond st = true) as Hcond
    by (apply cond_true; left; eapply nth_error_lt; eauto).
  pose proof (Step_functional (body_Step st Hcond)
                (step_ws_both wordsO wordsC st Ho Hc NE So Sc)) as E.
  unfold Diff.emitted; rewrite E; turn_simpl; auto.
Qed.

(** A turn at which a word faces another word substitutes the one for the
    other. *)
Lemma subst_turn (st : state) (o c : jsstring) :
  nth_error wordsO (i st) = Some o ->
  nth_error wordsC (j st) = Some c ->
  forallb is_space o = false -> forallb is_space c = false -> o <> c ->
  emitted st =
    ([Span (orig_err (i st)) (Some red) o],
     [Span (corr_fix (j st)) (Some green) c]) /\
  ops_of_turn (emitted st) = [Substitute o c].
Proof.
  intros Ho Hc So Sc NE.
  assert (cond st = true) as Hcond
    by (apply cond_true; left; eapply nth_error_lt; eauto).
  pose proof (Step_functional (body_Step st Hcond)
                (step_subst wordsO wordsC st Ho Hc NE So Sc)) as E.
  unfold Diff.emitted; rewrite E; turn_simpl; auto.
Qed.

End Walk.

(** ** The rendered keys *)

Section Keys.

Local Open Scope string_scope.

Lemma string_of_uint_no_dash (d : Decimal.uint) :
  no_dash (DecimalString.NilEmpty.string_of_uint d).
Proof. induction d; simpl; auto; split; auto; discriminate. Qed.

Lemma dec_no_dash (n : nat) : no_dash (dec n).
Proof. apply string_of_uint_no_dash. Qed.

Lemma dec_inj (n m : nat) : dec n = dec m -> n = m.
Proof.
  unfold dec; intros H.
  apply (f_equal DecimalString.NilEmpty.uint_of_string) in H.
  rewrite !DecimalString.NilEmpty.usu in H.
  injection H as H.
  apply (f_equal Nat.of_uint) in H.
  now rewrite !DecimalNat.Unsigned.of_to in H.
Qed.

Lemma append_inv_head (p a b : string) : p ++ a = p ++ b -> a = b.
Proof. induction p as [|x p IH]; simpl; [trivial|]. intros [= H]; auto. Qed.

(** Two numerals joined by a dash can be told apart. *)
Lemma dash_split (a a' b b' : string) :
  no_dash a -> no_dash a' ->
  a ++ String "-" b = a' ++ String "-" b' -> a = a' /\ b = b'.
Proof.
  revert a'; induction a as [|x a IH]; intros [|x' a']; simpl.
  - intros _ _ [= ->]; auto.
  - intros _ [Hx _] [= E _]; congruence.
  - intros [Hx _] _ [= E _]; congruence.
  - intros [_ Ha] [_ Ha'] [= -> E].
    destruct (IH a' Ha Ha' E) as [-> ->]; auto.
Qed.

(** The template literals give different strings to different keys. *)
Lemma key_string_inj (k k' : key) : key_string k = key_string k' -> k = k'.
Proof.
  destruct k, k'; unfold key_string; intros H;
    try (cbn [append] in H; discriminate H);
    apply append_inv_head in H.
  - apply dash_split in H; auto using dec_no_dash.
    destruct H as [Hi Hj]; apply dec_inj in Hi, Hj; congruence.
  - apply dec_inj in H; congruence.
  - apply dec_inj in H; congruence.
  - apply dec_inj in H; congruence.
  - apply dec_inj in H; congruence.
  - apply dec_inj in H; congruence.
  - apply dec_inj in H; congruence.
Qed.

End Keys.

(** ** The whole function *)

Section Run.

Variables original corrected : jsstring.

Local Abbreviation wordsO := (words original).
Local Abbreviation wordsC := (words corrected).
Local Abbreviation bound := (List.length wordsO + List.length wordsC).

Lemma measure_init : measure wordsO wordsC init = bound.
Proof. unfold measure; simpl; lia. Qed.

Lemma getDiffSegments_run :
  exists st,
    while wordsO wordsC bound init = Some st /\
    getDiffSegments original corrected =
      Some (originalSegments st, correctedSegments st).
Proof.
  destruct (@while_total wordsO wordsC (words_truthy original)
              (words_truthy corrected) bound init) as [st H].
  - rewrite measure_init; lia.
  - exists st; split; trivial.
    unfold getDiffSegments, getDiffSegments_fuel; now rewrite H.
Qed.

Lemma while_fuel_agree (O C : list jsstring) (f1 f2 : nat) (st s1 s2 : state) :
  while O C f1 st = Some s1 -> while O C f2 st = Some s2 -> s1 = s2.
Proof.
  intros H1 H2.
  apply while_fuel_mono with (fuel' := Nat.max f1 f2) in H1, H2; try lia.
  congruence.
Qed.

Lemma getDiffSegments_fuel_agree (fuel : nat) (r r' : list node * list node) :
  getDiffSegments original corrected = Some r ->
  getDiffSegments_fuel fuel original corrected = Some r' -> r' = r.
Proof.
  unfold getDiffSegments, getDiffSegments_fuel.
  destruct (while wordsO wordsC bound init) as [s1|] eqn:H1; [|discriminate].
  destruct (while wordsO wordsC fuel init) as [s2|] eqn:H2; [|discriminate].
  rewrite (while_fuel_agree _ _ _ _ _ H1 H2); congruence.
Qed.

Lemma getDiffSegments_fuel_enough (fuel : nat) (r : list node * list node) :
  getDiffSegments original corrected = Some r ->
  bound <= fuel ->
  getDiffSegments_fuel fuel original corrected = Some r.
Proof.
  unfold getDiffSegments, getDiffSegments_fuel.
  destruct (while wordsO wordsC bound init) as [s1|] eqn:H1; [|discriminate].
  intros E Hle.
  apply while_fuel_mono with (fuel' := fuel) in H1; [|exact Hle].
  now rewrite H1.
Qed.

(** The two halves of the alignment are the two token sequences. *)
Lemma alignment_sides :
  flat_map original_side (alignment original corrected) = wordsO /\
  flat_map revised_side (alignment original corrected) = wordsC.
Proof.
  destruct getDiffSegments_run as (st & Hw & _).
  destruct (while_text _ _ _ Hw) as [TO TC].
  destruct (while_turns _ _ _ _ Hw) as [EO EC].
  destruct (turns_sides wordsO wordsC bound init) as [SO SC].
  unfold alignment, alignment_fuel.
  cbn [init originalSegments correctedSegments app] in EO, EC.
  rewrite SO, SC, <- EO, <- EC; auto.
Qed.

Lemma alignment_In (a : op) :
  In a (alignment original corrected) ->
  exists st,
    In st (turns wordsO wordsC bound init) /\
    turn_facts wordsO wordsC st [a].
Proof.
  unfold alignment, alignment_fuel; intros H.
  apply in_flat_map in H; destruct H as (st & Hst & Ha).
  pose proof (turns_facts wordsO wordsC bound init) as F.
  rewrite Forall_forall in F; pose proof (F _ Hst) as Hf.
  exists st; split; trivial.
  destruct Hf as (FM & FS & FD & FI).
  clear F; repeat split; intros; cbn [In] in *; in_cases; subst;
    (apply FM in Ha || apply FS in Ha || apply FD in Ha || apply FI in Ha);
    tauto.
Qed.

Lemma alignment_turn (a : op) :
  In a (alignment original corrected) ->
  exists st, turn_facts wordsO wordsC st [a].
Proof.
  intros H; destruct (alignment_In _ H) as (st & _ & F); eauto.
Qed.

Lemma token_kind (l : jsstring) (t : jsstring) :
  In t (words l) -> forallb is_space t = false -> is_word_token t = true.
Proof.
  intros H Hf.
  pose proof (words_kind l) as K; rewrite Forall_forall in K.
  destruct (K _ H) as [S|W]; trivial.
  apply space_token_all in S; congruence.
Qed.

(** The alignment is an alignment of the two token sequences. *)
Lemma alignment_aligns :
  aligns (alignment original corrected) wordsO wordsC.
Proof.
  destruct alignment_sides as [SO SC].
  repeat split; trivial.
  apply Forall_forall; intros [t|o c|o|c] Ha; trivial.
  destruct (alignment_turn _ Ha) as (st & _ & FS & _).
  destruct (FS o c) as (Ho & Hc & NE & So & Sc); [now left|].
  apply nth_error_In in Ho, Hc.
  eauto using token_kind.
Qed.

End Run.

(** ** What the spans of the result are *)

Section Spans.

Variables wordsO wordsC : list jsstring.

Lemma okO_side (n : node) :
  okO wordsO wordsC n ->
  is_match n || is_substitute n || is_delete n = true.
Proof.
  destruct n as [k cl t]; unfold okO, is_match, is_substitute, is_delete;
    destruct k; cbn; tauto.
Qed.

Lemma okC_side (n : node) :
  okC wordsO wordsC n ->
  is_match n || is_substitute n || is_insert n = true.
Proof.
  destruct n as [k cl t]; unfold okC, is_match, is_substitute, is_insert;
    destruct k; cbn; tauto.
Qed.

Lemma okO_substitute (n : node) :
  okO wordsO wordsC n -> is_substitute n = true ->
  In (children n) wordsO /\ forallb is_space (children n) = false.
Proof.
  destruct n as [k cl t]; unfold okO, is_substitute;
    destruct k; cbn; try discriminate; try tauto.
  intros (H & Hs & _) _; split; trivial.
  eapply nth_error_In; eauto.
Qed.

Lemma okC_substitute (n : node) :
  okC wordsO wordsC n -> is_substitute n = true ->
  In (children n) wordsC /\ forallb is_space (children n) = false.
Proof.
  destruct n as [k cl t]; unfold okC, is_substitute;
    destruct k; cbn; try discriminate; try tauto.
  intros (H & Hs & _) _; split; trivial.
  eapply nth_error_In; eauto.
Qed.

Lemma okO_space (n : node) :
  okO wordsO wordsC n -> is_space_token (children n) = true -> space_okO wordsO wordsC n.
Proof.
  destruct n as [k cl t]; unfold okO, space_okO;
    destruct k as [a b|a|a|a|a|a|a]; cbn;
    intros (H & H'); try tauto; intros S.
  - left; exists a, b; tauto.
  - apply space_token_all in S; destruct H'; congruence.
  - apply space_token_all in S; destruct H'; congruence.
  - right; exists a; tauto.
Qed.

Lemma okC_space (n : node) :
  okC wordsO wordsC n -> is_space_token (children n) = true -> space_okC wordsO wordsC n.
Proof.
  destruct n as [k cl t]; unfold okC, space_okC;
    destruct k as [a b|a|a|a|a|a|a]; cbn;
    intros (H & H'); try tauto; intros S.
  - left; exists a, b; tauto.
  - apply space_token_all in S; destruct H'; congruence.
  - apply space_token_all in S; destruct H'; congruence.
  - right; exists a; tauto.
Qed.

End Spans.

Lemma NoDup_map_inj (A B : Type) (f : A -> B) (l : list A) :
  (forall x y, f x = f y -> x = y) -> NoDup l -> NoDup (map f l).
Proof.
  intros Hf; induction 1 as [|x l Hx _ IH]; simpl; constructor; trivial.
  intros H; apply in_map_iff in H; destruct H as (y & E & Hy).
  apply Hf in E; congruence.
Qed.

Lemma NoDup_rendered (index : key -> nat) (l : list node) (n : nat) :
  map (fun x => index (key_of x)) l = seq 0 n ->
  NoDup (map (fun x => key_string (key_of x)) l).
Proof.
  intros H.
  rewrite <- (map_map key_of key_string).
  apply NoDup_map_inj; [apply key_string_inj|].
  apply (NoDup_map_inv index).
  rewrite map_map, H; apply seq_NoDup.
Qed.

(** ** A string against itself, and against the empty string *)

Section Special.

Variable W : list jsstring.

Lemma inv_same_Step (st st' : state) :
  inv_same st -> cond W W st = true -> Step W W st st' -> inv_same st'.
Proof.
  intros (Hij & Hseg & HM) _ H; unfold inv_same.
  destruct H; unfold_nodes; cbn [i j originalSegments correctedSegments];
    rewrite Hij in *; same_tokens; cbn [forallb truthy] in *;
    try congruence.
  rewrite Hseg; repeat split; trivial.
  rewrite <- Hseg; apply Forall_app; split; trivial.
  repeat constructor.
Qed.

Lemma inv_added_Step (st st' : state) :
  inv_added st -> cond [] W st = true -> Step [] W st st' -> inv_added st'.
Proof.
  intros (Hseg & HI) _ H; unfold inv_added.
  destruct H; unfold_nodes; cbn [i j originalSegments correctedSegments];
    repeat match goal with
    | H : nth_error [] _ = Some _ |- _ =>
        rewrite nth_error_nil in H; discriminate H
    end;
    split; trivial; apply Forall_app; split; trivial; repeat constructor.
Qed.

Lemma inv_removed_Step (st st' : state) :
  inv_removed st -> cond W [] st = true -> Step W [] st st' ->
  inv_removed st'.
Proof.
  intros (Hseg & HI) _ H; unfold inv_removed.
  destruct H; unfold_nodes; cbn [i j originalSegments correctedSegments];
    repeat match goal with
    | H : nth_error [] _ = Some _ |- _ =>
        rewrite nth_error_nil in H; discriminate H
    end;
    split; trivial; apply Forall_app; split; trivial; repeat constructor.
Qed.

End Special.

Lemma all_Match (l : list op) :
  Forall (fun a => exists t, a = Match t) l ->
  l = map Match (flat_map original_side l).
Proof.
  induction 1 as [|a l [t ->] _ IH]; simpl; congruence.
Qed.

Lemma all_Insert (l : list op) :
  Forall (fun a => exists t, a = Insert t) l ->
  l = map Insert (flat_map revised_side l).
Proof.
  induction 1 as [|a l [t ->] _ IH]; simpl; congruence.
Qed.

Lemma all_Delete (l : list op) :
  Forall (fun a => exists t, a = Delete t) l ->
  l = map Delete (flat_map original_side l).
Proof.
  induction 1 as [|a l [t ->] _ IH]; simpl; congruence.
Qed.

Lemma cost_le_sides (l : list op) :
  cost l <=
  List.length (flat_map original_side l) +
  List.length (flat_map revised_side l).
Proof.
  unfold cost; induction l as [|a l IH]; simpl; [lia|].
  rewrite !length_app.
  destruct a; simpl; lia.
Qed.

(** The tokens must not be empty for the loop to end: were an empty string
    left in [wordsO], the white space sync would push nothing and move no
    index, and the loop would turn for ever. *)
Example stall_on_empty_token :
  body [[]] [] init = init /\ forall fuel, while [[]] [] fuel init = None.
Proof.
  split; [reflexivity|].
  induction fuel as [|fuel IH]; [reflexivity | exact IH].
Qed.


(** ** Scenarios of the specification *)

(** A word replaced at the end. *)
Example scenario_replaced_word :
  alignment (js "The cat sat") (js "The cat sit") =
    [Match (js "The"); Match (js " "); Match (js "cat"); Match (js " ");
     Substitute (js "sat") (js "sit")].
Proof. vm_compute; reflexivity. Qed.

(** Words dropped at the end. *)
Example scenario_dropped_tail :
  alignment (js "Quick fix now") (js "Quick fix") =
    [Match (js "Quick"); Match (js " "); Match (js "fix");
     Delete (js " "); Delete (js "now")] /\
  option_map (fun r => map children (snd r))
    (getDiffSegments (js "Quick fix now") (js "Quick fix")) =
    Some [js "Quick"; js " "; js "fix"].
Proof. split; vm_compute; reflexivity. Qed.


(** ** The diff on the heap *)

Section Heap.

Import Store.

Lemma bind_Some (A B : Type) (m : M A) (f : A -> M B) (h h' : heap)
  (a : A) :
  m h = Some (a, h') -> bind m f h = f a h'.
Proof.
  unfold bind; now intros ->.
Qed.

Lemma nth_error_mid (pre post : heap) (x : object) :
  nth_error (pre ++ x :: post) (List.length pre) = Some x.
Proof.
  rewrite nth_error_app2, Nat.sub_diag by lia; reflexivity.
Qed.

Lemma update_mid (pre post : heap) (x o : object) :
  update (List.length pre) o (pre ++ x :: post) = pre ++ o :: post.
Proof.
  induction pre as [|y pre IH]; simpl; [reflexivity | now rewrite IH].
Qed.

Lemma get_at (arr : ref) (l : list jsstring) (k : nat) (h : heap) :
  nth_error h arr = Some (Strings l) ->
  get arr k h = Some (nth_error l k, h).
Proof.
  intros E; unfold get, bind, read; now rewrite E.
Qed.

Lemma length_of_at (arr : ref) (l : list jsstring) (h : heap) :
  nth_error h arr = Some (Strings l) ->
  length_of arr h = Some (List.length l, h).
Proof.
  intros E; unfold length_of, bind, read; now rewrite E.
Qed.

Lemma push_at (pre post : heap) (l : list node) (n : node) :
  push (List.length pre) n (pre ++ Nodes l :: post) =
  Some (tt, pre ++ Nodes (l ++ [n]) :: post).
Proof.
  unfold push, bind, read, write.
  rewrite nth_error_mid, update_mid.
  replace (List.length pre <? List.length (pre ++ Nodes l :: post))
    with true; [reflexivity|].
  symmetry; apply Nat.ltb_lt; rewrite length_app; simpl; lia.
Qed.

Lemma push_after (pre post : heap) (x : object) (l : list node) (n : node) :
  push (S (List.length pre)) n (pre ++ x :: Nodes l :: post) =
  Some (tt, pre ++ x :: Nodes (l ++ [n]) :: post).
Proof.
  pose proof (push_at (pre ++ [x]) post l n) as E.
  rewrite length_app, Nat.add_1_r, <- !app_assoc in E; exact E.
Qed.

(** A regular expression of a literal is new and has no flag: the test
    does not depend on what the heap holds and changes no object of it. *)
Lemma test_literal (s : jsstring) (h : heap) :
  bind regexp_literal (fun re => test re s) h =
  Some (test_all_space s, h ++ [RegExp false 0]).
Proof.
  unfold regexp_literal, alloc, test, read, ret, bind; cbv beta iota.
  now rewrite nth_error_mid.
Qed.

Lemma bind_assoc (A B C : Type) (m : M A) (f : A -> M B) (g : B -> M C)
  (h : heap) :
  bind (bind m f) g h = bind m (fun a => bind (f a) g) h.
Proof.
  unfold bind; destruct (m h) as [[a h']|]; reflexivity.
Qed.

(** Half of the last case of a turn: [if (x && /^\s+$/.test(x)) { arr.push(n);
    k++; }] for the array after [pre]. *)
Lemma sync_at (x : option jsstring) (k : nat) (n : node)
  (pre post : heap) (l : list node) :
  exists more,
    (if truthy_opt x then
       re <- regexp_literal ;;
       b <- test re (text_of x) ;;
       if b then _ <- push (List.length pre) n ;; ret (S k) else ret k
     else ret k) (pre ++ Nodes l :: post) =
    Some (if truthy_opt x && test_all_space (text_of x) then S k else k,
          pre ++
          Nodes (if truthy_opt x && test_all_space (text_of x)
                 then l ++ [n] else l) :: post ++ more).
Proof.
  destruct (truthy_opt x); cbn [andb].
  - exists [RegExp false 0].
    unfold regexp_literal, alloc, test, read, ret, bind; cbv beta iota.
    rewrite nth_error_mid.
    destruct (test_all_space (text_of x)).
    + rewrite <- app_assoc; cbn [app]; now rewrite push_at.
    + now rewrite <- app_assoc.
  - exists []; now rewrite app_nil_r.
Qed.

Section Simulation.

Variables wO wC : list jsstring.
Variable pre : heap.
Variables aWO aWC : ref.

Hypothesis HO : nth_error pre aWO = Some (Strings wO).
Hypothesis HC : nth_error pre aWC = Some (Strings wC).

(** The heap in a turn of the loop: the two arrays of spans after what
    there was when they were made, and what was made since. *)
Local Abbreviation heap_of st extra :=
  (pre ++ Nodes (originalSegments st) :: Nodes (correctedSegments st)
       :: extra).

Lemma lookup_O (post : heap) :
  nth_error (pre ++ post) aWO = Some (Strings wO).
Proof.
  rewrite nth_error_app1; [exact HO|].
  apply nth_error_Some; congruence.
Qed.

Lemma lookup_C (post : heap) :
  nth_error (pre ++ post) aWC = Some (Strings wC).
Proof.
  rewrite nth_error_app1; [exact HC|].
  apply nth_error_Some; congruence.
Qed.

Lemma cond_heap (st : state) (extra : heap) :
  Store.cond aWO aWC (i st, j st) (heap_of st extra) =
  Some (Diff.cond wO wC st, heap_of st extra).
Proof.
  unfold Store.cond, Diff.cond; cbn [fst snd].
  rewrite bind_Some with (1 := length_of_at _ _ (lookup_O _)).
  destruct (i st <? List.length wO); [reflexivity|].
  now rewrite bind_Some with (1 := length_of_at _ _ (lookup_C _)).
Qed.

(** A turn of the loop on the heap is the turn of [Diff.body]: it changes
    the two arrays of spans as [Diff.body] does its two lists, makes new
    objects, and leaves every other object as it is. *)
Lemma body_heap (st : state) (extra : heap) :
  exists extra',
    Store.body aWO aWC (List.length pre) (S (List.length pre)) (i st, j st)
      (heap_of st extra) =
    Some ((i (Diff.body wO wC st), j (Diff.body wO wC st)),
          heap_of (Diff.body wO wC st) extra').
Proof.
  unfold Store.body, Diff.body; cbv zeta; cbn [fst snd].
  rewrite bind_Some with (1 := get_at _ _ _ (lookup_O _)).
  rewrite bind_Some with (1 := get_at _ _ _ (lookup_C _)).
  set (o := nth_error wO (i st)); set (c := nth_error wC (j st)).
  destruct (strict_eq o c).
  { destruct o as [t|]; walk_simpl.
    - rewrite bind_assoc.
      rewrite bind_Some with (1 := push_at _ _ _ _).
      rewrite bind_Some with (1 := push_after _ _ _ _ _).
      eexists; reflexivity.
    - eexists; reflexivity. }
  destruct (truthy_opt (option_map trim o)),
    (truthy_opt (option_map trim c)); cbn [andb]; walk_simpl.
  - rewrite bind_Some with (1 := push_at _ _ _ _).
    rewrite bind_Some with (1 := push_after _ _ _ _ _).
    eexists; reflexivity.
  - rewrite bind_Some with (1 := push_at _ _ _ _).
    eexists; reflexivity.
  - rewrite bind_Some with (1 := push_after _ _ _ _ _).
    eexists; reflexivity.
  - destruct (sync_at o (i st) (Span (ws_o (i st)) None (text_of o)) pre
                (Nodes (correctedSegments st) :: extra)
                (originalSegments st)) as [more1 E1].
    rewrite bind_Some with (1 := E1); clear E1.
    set (so := if truthy_opt o && test_all_space (text_of o)
               then originalSegments st ++ _ else originalSegments st).
    destruct (sync_at c (j st) (Span (ws_c (j st)) None (text_of c))
                (pre ++ [Nodes so]) (extra ++ more1)
                (correctedSegments st)) as [more2 E2].
    rewrite length_app, Nat.add_1_r, <- !app_assoc in E2; cbn [app] in E2.
    rewrite bind_Some with (1 := E2); clear E2.
    exists (extra ++ more1 ++ more2); subst so.
    destruct (truthy_opt o && test_all_space (text_of o)),
      (truthy_opt c && test_all_space (text_of c)); reflexivity.
Qed.

Lemma while_heap (fuel : nat) :
  forall (st st' : state) (extra : heap),
    Diff.while wO wC fuel st = Some st' ->
    exists extra',
      Store.while aWO aWC (List.length pre) (S (List.length pre)) fuel
        (i st, j st) (heap_of st extra) =
      Some ((i st', j st'), heap_of st' extra').
Proof.
  induction fuel as [|fuel IH]; intros st st' extra;
    cbn [Diff.while Store.while];
    rewrite bind_Some with (1 := cond_heap st extra);
    destruct (Diff.cond wO wC st); try discriminate;
    try (intros [= <-]; eexists; reflexivity).
  intros W.
  destruct (body_heap st extra) as [extra1 E1].
  rewrite bind_Some with (1 := E1).
  now apply IH.
Qed.

End Simulation.

Lemma nth_error_plus (pre post : heap) (k : nat) :
  nth_error (pre ++ post) (List.length pre + k) = nth_error post k.
Proof.
  rewrite nth_error_app2 by lia; f_equal; lia.
Qed.

(** The call on any heap: six objects are made before the loop, the arrays
    returned are the seventh and the eighth, and they hold at the end what
    [Diff.getDiffSegments] gives. The heap there was is a part of the heap
    at the end. *)
Lemma getDiffSegments_heap (original corrected : jsstring) (h : heap) :
  exists segO segC fresh,
    Diff.getDiffSegments original corrected = Some (segO, segC) /\
    Store.getDiffSegments original corrected h =
      Some ((List.length h + 6, List.length h + 7), h ++ fresh) /\
    nodes_at (List.length h + 6) (h ++ fresh) = Some segO /\
    nodes_at (List.length h + 7) (h ++ fresh) = Some segC.
Proof.
  destruct (getDiffSegments_run original corrected) as (st & W & E).
  set (pre := h ++ [RegExp false 0; Strings (split_space original);
                    Strings (words original); RegExp false 0;
                    Strings (split_space corrected);
                    Strings (words corrected)]).
  assert (Lp : List.length pre = List.length h + 6)
    by (unfold pre; rewrite length_app; reflexivity).
  assert (HO : nth_error pre (List.length h + 2) =
               Some (Strings (words original)))
    by (unfold pre; now rewrite nth_error_plus).
  assert (HC : nth_error pre (List.length h + 5) =
               Some (Strings (words corrected)))
    by (unfold pre; now rewrite nth_error_plus).
  destruct (@while_heap _ _ _ _ _ HO HC _ init st [] W) as [extra Hw].
  cbn [i j originalSegments correctedSegments init] in Hw.
  rewrite Lp in Hw.
  replace (S (List.length h + 6)) with (List.length h + 7) in Hw by lia.
  unfold pre in Hw; rewrite <- !app_assoc in Hw; cbn [app] in Hw.
  exists (originalSegments st), (correctedSegments st).
  eexists.
  split; [exact E|].
  unfold Store.getDiffSegments, Store.getDiffSegments_fuel.
  unfold regexp_literal, split, filter_Boolean, alloc, read, ret, bind.
  cbv beta iota.
  repeat (rewrite nth_error_mid; cbv beta iota).
  rewrite !length_app; cbn [List.length].
  rewrite <- !Nat.add_assoc; cbn [Nat.add].
  rewrite <- !app_assoc; cbn [app].
  fold (words original); fold (words corrected).
  rewrite Hw.
  split; [reflexivity|].
  unfold nodes_at; rewrite !nth_error_plus; split; reflexivity.
Qed.

End Heap.


(** A regular expression with the flag [g] that is kept between two tests
    remembers the first: the heap can tell two runs apart. The literals of
    [getDiffSegments] have no flag and are made anew at every test. *)
Example kept_regexp_remembers :
  Store.bind (Store.test 0 (js " "))
    (fun b1 => Store.bind (Store.test 0 (js " "))
                 (fun b2 => Store.ret (b1, b2)))
    [Store.RegExp true 0] =
  Some ((true, false), [Store.RegExp true 0]).
Proof. reflexivity. Qed.

(** Two spaces against one, on a heap that holds an array already: the
    arrays returned are new, the array there was is as it was, and the two
    tests of the last case made a regular expression each. *)
Example heap_scenario_spaces :
  Store.getDiffSegments (js "  ") (js " ") [Store.Nodes []] =
  Some ((7, 8),
        [Store.Nodes []; Store.RegExp false 0;
         Store.Strings [[]; js "  "; []]; Store.Strings [js "  "];
         Store.RegExp false 0;
         Store.Strings [[]; js " "; []]; Store.Strings [js " "];
         Store.Nodes [Span (ws_o 0) None (js "  ")];
         Store.Nodes [Span (ws_c 0) None (js " ")];
         Store.RegExp false 0; Store.RegExp false 0]).
Proof. reflexivity. Qed.

(** * The properties of the specification *)

(** C3. The tokens of a string, put one after the other, are the string:
    nothing is dropped, moved or changed. Every character of the string is in
    one token and in one only, at one place in it. The empty string has no
    token. The tokens are not empty and are in turn runs of white space and
    runs of other characters. *)
Theorem words_lossless (s : jsstring) :
  concat (words s) = s /\
  words [] = [] /\
  (exists k, alt k (words s)) /\
  forall p, p < List.length s ->
    exists t q,
      (t < List.length (words s) /\
       q < List.length (nth t (words s) []) /\
       offset (words s) t + q = p /\
       nth_error (nth t (words s) []) q = nth_error s p) /\
      forall t' q',
        q' < List.length (nth t' (words s) []) ->
        offset (words s) t' + q' = p -> t' = t /\ q' = q.
Proof.
  split; [apply words_concat|].
  split; [reflexivity|].
  split; [apply words_alt|].
  intros p Hp.
  rewrite <- (words_concat s) in Hp at 1.
  destruct (concat_locate _ Hp) as (t & q & Ht & Hq & Hoff & Hnth).
  exists t, q; split.
  - rewrite words_concat in Hnth; auto.
  - intros t' q' Hq' Hoff'.
    apply (locate_unique (words s)); trivial; lia.
Qed.

(** C10. The loop ends on every pair of strings. The tokens are not empty,
    so every turn taken while the condition of the loop holds moves [i] or
    [j] forward, the white space sync too, and neither index ever moves
    back; the number of tokens of the two strings is fuel enough, and more
    fuel gives the same result. *)
Theorem getDiffSegments_terminates (original corrected : jsstring) :
  let wordsO := words original in
  let wordsC := words corrected in
  Forall (fun t => truthy t = true) wordsO /\
  Forall (fun t => truthy t = true) wordsC /\
  (forall st, cond wordsO wordsC st = true ->
     i st <= i (body wordsO wordsC st) /\
     j st <= j (body wordsO wordsC st) /\
     i st + j st < i (body wordsO wordsC st) + j (body wordsO wordsC st)) /\
  exists r,
    getDiffSegments original corrected = Some r /\
    forall fuel,
      List.length wordsO + List.length wordsC <= fuel ->
      getDiffSegments_fuel fuel original corrected = Some r.
Proof.
  intros wordsO wordsC.
  split; [apply words_truthy|].
  split; [apply words_truthy|].
  split.
  - intros st Hc.
    pose proof (@Step_progress wordsO wordsC (words_truthy original)
                  (words_truthy corrected) st _ Hc (body_Step _ _ st Hc)).
    tauto.
  - destruct (getDiffSegments_run original corrected) as (st & _ & E).
    eexists; split; [exact E|].
    intros fuel Hle; now apply getDiffSegments_fuel_enough.
Qed.

(** C9. The result is a function of the two strings alone, and the call
    touches nothing but what it makes itself. A run that ends gives the one
    result, whatever the bound on its turns. On any heap, whatever earlier
    calls and others left there, the call ends and returns two new arrays,
    different from each other, that hold the same spans, keys and classes
    included; every object there was before the call is there after it, as
    it was. Of two calls one after the other, the second leaves the arrays
    of the first as they were and gives what it gives alone, in arrays of its
    own. *)
Theorem getDiffSegments_deterministic (original corrected : jsstring) :
  exists segO segC,
    getDiffSegments original corrected = Some (segO, segC) /\
    (forall fuel r',
       getDiffSegments_fuel fuel original corrected = Some r' ->
       r' = (segO, segC)) /\
    (forall h : Store.heap,
       exists aO aC fresh,
         Store.getDiffSegments original corrected h =
           Some ((aO, aC), h ++ fresh) /\
         List.length h <= aO /\ List.length h <= aC /\ aO <> aC /\
         Store.nodes_at aO (h ++ fresh) = Some segO /\
         Store.nodes_at aC (h ++ fresh) = Some segC) /\
    (forall (original' corrected' : jsstring) (h : Store.heap),
       exists aO aC h1 bO bC h2 segO' segC',
         Store.getDiffSegments original corrected h = Some ((aO, aC), h1) /\
         Store.getDiffSegments original' corrected' h1 =
           Some ((bO, bC), h2) /\
         NoDup [aO; aC; bO; bC] /\
         firstn (List.length h) h2 = h /\
         Store.nodes_at aO h2 = Some segO /\
         Store.nodes_at aC h2 = Some segC /\
         Store.nodes_at bO h2 = Some segO' /\
         Store.nodes_at bC h2 = Some segC' /\
         getDiffSegments original' corrected' = Some (segO', segC')).
Proof.
  destruct (getDiffSegments_run original corrected) as (st & _ & E).
  exists (originalSegments st), (correctedSegments st).
  split; [exact E|].
  split; [intros fuel r'; now apply getDiffSegments_fuel_agree|].
  assert (Heap : forall h : Store.heap,
             exists fresh,
               Store.getDiffSegments original corrected h =
                 Some ((List.length h + 6, List.length h + 7), h ++ fresh) /\
               Store.nodes_at (List.length h + 6) (h ++ fresh) =
                 Some (originalSegments st) /\
               Store.nodes_at (List.length h + 7) (h ++ fresh) =
                 Some (correctedSegments st)).
  { intros h.
    destruct (getDiffSegments_heap original corrected h)
      as (so & sc & fresh & E' & R & NO & NC).
    rewrite E in E'; injection E' as <- <-.
    exists fresh; auto. }
  split.
  - intros h; destruct (Heap h) as (fresh & R & NO & NC).
    exists (List.length h + 6), (List.length h + 7), fresh.
    repeat split; trivial; lia.
  - intros original' corrected' h.
    destruct (Heap h) as (fresh & R & NO & NC).
    destruct (getDiffSegments_heap original' corrected' (h ++ fresh))
      as (so' & sc' & fresh' & E' & R' & NO' & NC').
    exists (List.length h + 6), (List.length h + 7), (h ++ fresh).
    exists (List.length (h ++ fresh) + 6), (List.length (h ++ fresh) + 7).
    exists ((h ++ fresh) ++ fresh'), so', sc'.
    assert (LO : List.length h + 6 < List.length (h ++ fresh)).
    { unfold Store.nodes_at in NO; apply nth_error_Some.
      destruct (nth_error (h ++ fresh) (List.length h + 6)); discriminate. }
    assert (LC : List.length h + 7 < List.length (h ++ fresh)).
    { unfold Store.nodes_at in NC; apply nth_error_Some.
      destruct (nth_error (h ++ fresh) (List.length h + 7)); discriminate. }
    split; [exact R|].
    split; [exact R'|].
    split.
    { repeat constructor; cbn [In]; lia. }
    split.
    { rewrite <- app_assoc, firstn_app, firstn_all, Nat.sub_diag.
      cbn [firstn]; apply app_nil_r. }
    unfold Store.nodes_at in NO, NC |- *.
    rewrite !(nth_error_app1 (h ++ fresh) fresh') by assumption.
    auto.
Qed.

(** C2. The texts of the spans of the original side, in their order, are the
    tokens of the original string, and put one after the other they are the
    string; the same holds of the corrected side. The spans of the original
    side are those of a Match, a Substitute or a Delete, white space passed
    through among them, those of the corrected side of a Match, a Substitute
    or an Insert. The two halves of the alignment are the two token
    sequences. *)
Theorem reconstruction (original corrected : jsstring) :
  exists segO segC,
    getDiffSegments original corrected = Some (segO, segC) /\
    map children segO = words original /\
    map children segC = words corrected /\
    concat (map children segO) = original /\
    concat (map children segC) = corrected /\
    Forall (fun n => is_match n || is_substitute n || is_delete n = true)
      segO /\
    Forall (fun n => is_match n || is_substitute n || is_insert n = true)
      segC /\
    flat_map original_side (alignment original corrected) = words original /\
    flat_map revised_side (alignment original corrected) = words corrected.
Proof.
  destruct (getDiffSegments_run original corrected) as (st & Hw & E).
  destruct (while_text _ _ _ Hw) as [TO TC].
  destruct (while_node _ _ _ Hw) as [NO NC].
  destruct (alignment_sides original corrected) as [SO SC].
  exists (originalSegments st), (correctedSegments st).
  rewrite TO, TC, !words_concat.
  repeat split; trivial.
  - eapply Forall_impl; [|exact NO]; apply okO_side.
  - eapply Forall_impl; [|exact NC]; apply okC_side.
Qed.

(** C8. The keys are a function of the two strings, the same at every run.
    On each side no two spans have the same rendered key: the key of the
    span at place [k] is made from the index [k]. The spans of the Matches
    are the same on the two sides, with their keys. *)
Theorem keys_collision_free (original corrected : jsstring) :
  exists segO segC,
    getDiffSegments original corrected = Some (segO, segC) /\
    (forall fuel r',
       getDiffSegments_fuel fuel original corrected = Some r' ->
       r' = (segO, segC)) /\
    NoDup (map (fun n => key_string (key_of n)) segO) /\
    NoDup (map (fun n => key_string (key_of n)) segC) /\
    map (fun n => orig_index (key_of n)) segO =
      seq 0 (List.length (words original)) /\
    map (fun n => corr_index (key_of n)) segC =
      seq 0 (List.length (words corrected)) /\
    filter is_match segO = filter is_match segC.
Proof.
  destruct (getDiffSegments_run original corrected) as (st & Hw & E).
  destruct (while_index _ _ _ Hw) as [IO IC].
  pose proof (while_shared _ _ _ Hw) as SH.
  exists (originalSegments st), (correctedSegments st).
  repeat split; trivial.
  - intros fuel r'; now apply getDiffSegments_fuel_agree.
  - eapply NoDup_rendered; exact IO.
  - eapply NoDup_rendered; exact IC.
Qed.

(** C4. No Substitute has a white space token: the spans of a Substitute
    carry Word tokens on both sides, and so do the Substitutes of the
    alignment. A white space token is matched with the same token of the
    other text or is passed through on its own side without a style. Where
    two different runs of white space face each other, the turn gives a
    Delete and an Insert of the two Space tokens, as for "a  b" against
    "a b". *)
Theorem whitespace_never_substituted (original corrected : jsstring) :
  let wordsO := words original in
  let wordsC := words corrected in
  (exists segO segC,
     getDiffSegments original corrected = Some (segO, segC) /\
     Forall (fun n => is_substitute n = true ->
                      is_word_token (children n) = true) segO /\
     Forall (fun n => is_substitute n = true ->
                      is_word_token (children n) = true) segC /\
     Forall (fun n => is_space_token (children n) = true ->
                      space_okO wordsO wordsC n) segO /\
     Forall (fun n => is_space_token (children n) = true ->
                      space_okC wordsO wordsC n) segC) /\
  Forall (fun a => match a with
                   | Substitute o c =>
                       is_word_token o = true /\ is_word_token c = true
                   | _ => True
                   end) (alignment original corrected) /\
  (forall st o c,
     nth_error wordsO (i st) = Some o ->
     nth_error wordsC (j st) = Some c ->
     is_space_token o = true -> is_space_token c = true -> o <> c ->
     emitted wordsO wordsC st =
       ([Span (ws_o (i st)) None o], [Span (ws_c (j st)) None c]) /\
     ops_of_turn (emitted wordsO wordsC st) = [Delete o; Insert c]) /\
  getDiffSegments (js "a  b") (js "a b") =
    Some ([Span (match_ 0 0) (Some slate) (js "a");
           Span (ws_o 1) None (js "  ");
           Span (match_ 2 2) (Some slate) (js "b")],
          [Span (match_ 0 0) (Some slate) (js "a");
           Span (ws_c 1) None (js " ");
           Span (match_ 2 2) (Some slate) (js "b")]) /\
  alignment (js "a  b") (js "a b") =
    [Match (js "a"); Delete (js "  "); Insert (js " "); Match (js "b")].
Proof.
  intros wordsO wordsC.
  split; [|split; [|split; [|split]]].
  - destruct (getDiffSegments_run original corrected) as (st & Hw & E).
    destruct (while_node _ _ _ Hw) as [NO NC].
    exists (originalSegments st), (correctedSegments st).
    repeat split; trivial.
    + eapply Forall_impl; [|exact NO]; intros n Hn Hs.
      destruct (okO_substitute Hn Hs); eapply token_kind; eauto.
    + eapply Forall_impl; [|exact NC]; intros n Hn Hs.
      destruct (okC_substitute Hn Hs); eapply token_kind; eauto.
    + eapply Forall_impl; [|exact NO]; intros n; apply okO_space.
    + eapply Forall_impl; [|exact NC]; intros n; apply okC_space.
  - pose proof (alignment_aligns original corrected) as (_ & _ & F).
    eapply Forall_impl; [|exact F].
    intros [t|o c|o|c]; tauto.
  - intros st o c; apply ws_mismatch_turn.
  - vm_compute; reflexivity.
  - vm_compute; reflexivity.
Qed.

(** C6. A string against itself gives Matches only: the two lists of spans
    are one list of Match spans in the style of unchanged text, one for
    every token, and the alignment is a Match of every token in turn. *)
Theorem identity (s : jsstring) :
  exists seg,
    getDiffSegments s s = Some (seg, seg) /\
    Forall (fun n => is_match n = true /\ className n = Some slate) seg /\
    map children seg = words s /\
    alignment s s = map Match (words s).
Proof.
  destruct (getDiffSegments_run s s) as (st & Hw & E).
  assert (inv_same init) as H0 by (repeat split; constructor).
  destruct (@while_inv _ _ inv_same (@inv_same_Step (words s)) _ _ _ H0 Hw)
    as [(_ & Hseg & HM) _].
  destruct (while_text _ _ _ Hw) as [TO _].
  exists (originalSegments st); rewrite E, <- Hseg.
  split; [reflexivity|].
  split; [exact HM|].
  split; [exact TO|].
  destruct (alignment_sides s s) as [SO _].
  etransitivity; [apply all_Match | now rewrite SO].
  apply Forall_forall; intros a Ha.
  destruct (alignment_In _ _ _ Ha) as (t & Ht & FM & FS & FD & FI).
  pose proof (@turns_inv _ _ inv_same (@inv_same_Step (words s))
                (List.length (words s) + List.length (words s)) _ H0) as TI.
  rewrite Forall_forall in TI; destruct (TI _ Ht) as (Hij & _).
  destruct a as [x|o c|o|c]; [eauto| | |]; exfalso.
  - destruct (FS o c) as (Ho & Hc & NE & _); [now left|].
    rewrite Hij in Ho; congruence.
  - destruct (FD o) as (Ho & Hc & _); [now left|].
    rewrite Hij in Ho; congruence.
  - destruct (FI c) as (Hc & Ho & _); [now left|].
    rewrite Hij in Ho; congruence.
Qed.

(** C7. The empty string against [s] gives Inserts only, one for every token
    of [s], and nothing on the original side; [s] against the empty string
    gives Deletes only, one for every token of [s], and nothing on the
    corrected side. White space is inserted and deleted as words are, and
    shown without a style. *)
Theorem emptiness (s : jsstring) :
  (exists segC,
     getDiffSegments [] s = Some ([], segC) /\
     Forall (fun n => is_insert n = true) segC /\
     map children segC = words s /\
     alignment [] s = map Insert (words s)) /\
  (exists segO,
     getDiffSegments s [] = Some (segO, []) /\
     Forall (fun n => is_delete n = true) segO /\
     map children segO = words s /\
     alignment s [] = map Delete (words s)).
Proof.
  split.
  - destruct (getDiffSegments_run [] s) as (st & Hw & E).
    change (words []) with (@nil jsstring) in Hw.
    assert (inv_added init) as H0 by (split; constructor).
    destruct (@while_inv _ _ inv_added (@inv_added_Step (words s)) _ _ _ H0 Hw)
      as [(Hseg & HI) _].
    destruct (while_text _ _ _ Hw) as [_ TC].
    exists (correctedSegments st); rewrite E, Hseg.
    repeat split; trivial.
    destruct (alignment_sides [] s) as [_ SC].
    etransitivity; [apply all_Insert | now rewrite SC].
    apply Forall_forall; intros a Ha.
    destruct (alignment_In _ _ _ Ha) as (t & _ & FM & FS & FD & _).
    change (words []) with (@nil jsstring) in FM, FS, FD.
    destruct a as [x|o c|o|c]; [| | |eauto]; exfalso.
    + destruct (FM x) as (Ho & _); [now left|].
      rewrite nth_error_nil in Ho; discriminate.
    + destruct (FS o c) as (Ho & _); [now left|].
      rewrite nth_error_nil in Ho; discriminate.
    + destruct (FD o) as (Ho & _); [now left|].
      rewrite nth_error_nil in Ho; discriminate.
  - destruct (getDiffSegments_run s []) as (st & Hw & E).
    change (words []) with (@nil jsstring) in Hw.
    assert (inv_removed init) as H0 by (split; constructor).
    destruct (@while_inv _ _ inv_removed (@inv_removed_Step (words s)) _ _ _ H0
                Hw)
      as [(Hseg & HI) _].
    destruct (while_text _ _ _ Hw) as [TO _].
    exists (originalSegments st); rewrite E, Hseg.
    repeat split; trivial.
    destruct (alignment_sides s []) as [SO _].
    etransitivity; [apply all_Delete | now rewrite SO].
    apply Forall_forall; intros a Ha.
    destruct (alignment_In _ _ _ Ha) as (t & _ & FM & FS & _ & FI).
    change (words []) with (@nil jsstring) in FM, FS, FI.
    destruct a as [x|o c|o|c]; [| |eauto|]; exfalso.
    + destruct (FM x) as (_ & Hc); [now left|].
      rewrite nth_error_nil in Hc; discriminate.
    + destruct (FS o c) as (_ & Hc & _); [now left|].
      rewrite nth_error_nil in Hc; discriminate.
    + destruct (FI c) as (Hc & _); [now left|].
      rewrite nth_error_nil in Hc; discriminate.
Qed.

(** C5, as the code has it. The loop has no pass that collapses a Delete and
    an Insert: the spans of the result are the spans the turns push, as they
    push them. A Substitute comes only from a turn at which a word of the
    original faces another word of the corrected text at the places [i] and
    [j], and such a turn gives the Substitute; a Delete of a word comes from
    a turn at which the token of the corrected text is white space or past
    the end, an Insert of a word from a turn at which the token of the
    original is. A Delete of a word followed after white space by an Insert
    of a word stays as it is: "x" against " y". *)
Theorem substitute_only_in_place (original corrected : jsstring) :
  let wordsO := words original in
  let wordsC := words corrected in
  let steps :=
    turns wordsO wordsC (List.length wordsO + List.length wordsC) init in
  getDiffSegments original corrected =
    Some (flat_map (fun st => fst (emitted wordsO wordsC st)) steps,
          flat_map (fun st => snd (emitted wordsO wordsC st)) steps) /\
  Forall (fun st =>
            turn_facts wordsO wordsC st
              (ops_of_turn (emitted wordsO wordsC st))) steps /\
  (forall st o c,
     nth_error wordsO (i st) = Some o ->
     nth_error wordsC (j st) = Some c ->
     forallb is_space o = false -> forallb is_space c = false -> o <> c ->
     ops_of_turn (emitted wordsO wordsC st) = [Substitute o c]) /\
  getDiffSegments (js "x") (js " y") =
    Some ([Span (orig_del 0) (Some red) (js "x")],
          [Span (ws_c 0) None (js " ");
           Span (corr_add 1) (Some green) (js "y")]) /\
  alignment (js "x") (js " y") =
    [Delete (js "x"); Insert (js " "); Insert (js "y")].
Proof.
  intros wordsO wordsC steps.
  split; [|split; [|split; [|split]]].
  - destruct (getDiffSegments_run original corrected) as (st & Hw & E).
    destruct (while_turns _ _ _ _ Hw) as [EO EC].
    rewrite E, EO, EC; reflexivity.
  - apply turns_facts.
  - intros st o c Ho Hc So Sc NE.
    now apply subst_turn.
  - vm_compute; reflexivity.
  - vm_compute; reflexivity.
Qed.

(** C5 as the specification states it fails: for "x" against " y" the
    alignment is a Delete of "x", an Insert of the space and an Insert of
    "y", with no Substitute. *)
Lemma delete_insert_not_collapsed :
  uncollapsed (alignment (js "x") (js " y")) = true /\
  existsb is_Substitute (alignment (js "x") (js " y")) = false /\
  ~ (forall original corrected : jsstring,
       uncollapsed (alignment original corrected) = false).
Proof.
  split; [vm_compute; reflexivity|].
  split; [vm_compute; reflexivity|].
  intros H; specialize (H (js "x") (js " y")).
  vm_compute in H; discriminate H.
Qed.

(** C1, as the code has it. The diff is one walk from left to right over the
    two token sequences. What it walks through is an alignment of them, with
    no more operations that are not a Match than there are tokens, but not
    always the least number: "I like tea" against "I really like tea" gives
    two Substitutes and two Inserts. *)
Theorem alignment_bounded (original corrected : jsstring) :
  aligns (alignment original corrected) (words original) (words corrected) /\
  cost (alignment original corrected) <=
    List.length (words original) + List.length (words corrected) /\
  alignment (js "I like tea") (js "I really like tea") =
    [Match (js "I"); Match (js " ");
     Substitute (js "like") (js "really");
     Match (js " ");
     Substitute (js "tea") (js "like");
     Insert (js " "); Insert (js "tea")] /\
  cost (alignment (js "I like tea") (js "I really like tea")) = 4.
Proof.
  split; [apply alignment_aligns|].
  split.
  - destruct (alignment_sides original corrected) as [SO SC].
    rewrite <- SO at 1; rewrite <- SC at 1; apply cost_le_sides.
  - split; vm_compute; reflexivity.
Qed.

(** C1 as the specification states it fails: for "I like tea" against
    "I really like tea" the alignment that inserts "really" and a space has
    two operations that are not a Match, the walk has four, two Substitutes
    among them. *)
Lemma walk_not_minimal :
  ~ minimal_alignment (js "I like tea") (js "I really like tea") /\
  existsb is_Substitute
    (alignment (js "I like tea") (js "I really like tea")) = true.
Proof.
  split; [|vm_compute; reflexivity].
  intros H.
  specialize (H [Match (js "I"); Match (js " ");
                 Insert (js "really"); Insert (js " ");
                 Match (js "like"); Match (js " "); Match (js "tea")]).
  assert (4 <= 2) as Hle; [|lia].
  apply H; repeat split; repeat constructor.
Qed.

(** * Further properties of the code *)

Import App.

(** ** [SafeText] *)

Section SafeTextFacts.

Lemma split_lines_from_cons (line s : jsstring) :
  exists x l, split_lines_from line s = x :: l.
Proof.
  revert line; induction s as [|c s IH]; intros line; simpl; eauto.
  destruct (c =? 10)%N; eauto.
Qed.

Lemma split_lines_from_join (line s : jsstring) :
  join_lines (split_lines_from line s) = line ++ s.
Proof.
  revert line; induction s as [|c s IH]; intros line; simpl.
  - now rewrite app_nil_r.
  - destruct (N.eqb_spec c 10) as [->|_].
    + destruct (split_lines_from_cons [] s) as (x & l & E).
      cbn [join_lines]; rewrite E, <- E, IH; reflexivity.
    + rewrite IH, <- app_assoc; reflexivity.
Qed.

Lemma split_lines_from_no_feed (line s : jsstring) :
  ~ In 10%N line ->
  Forall (fun l => ~ In 10%N l) (split_lines_from line s).
Proof.
  revert line; induction s as [|c s IH]; intros line Hl; simpl.
  - constructor; auto.
  - destruct (N.eqb_spec c 10) as [->|Hc].
    + constructor; auto.
    + apply IH; intros H; apply in_app_or in H; simpl in H.
      destruct H as [H|[H|[]]]; auto.
Qed.

Lemma split_lines_from_length (line s : jsstring) :
  List.length (split_lines_from line s) = S (count_occ N.eq_dec s 10%N).
Proof.
  revert line; induction s as [|c s IH]; intros line; simpl; trivial.
  destruct (N.eq_dec c 10) as [E|E]; destruct (N.eqb_spec c 10);
    try congruence; simpl; now rewrite IH.
Qed.

Lemma fragments_from_text (h : option bool) (len k : nat)
  (arr : list jsstring) :
  len = k + List.length arr ->
  fragments_text (fragments_from h len k arr) = join_lines arr.
Proof.
  revert k; induction arr as [|x arr IH]; intros k Hlen; trivial.
  cbn [fragments_from fragments_text flat_map line br join_lines].
  fold (fragments_text (fragments_from h len (S k) arr)).
  rewrite IH by (simpl in Hlen; lia).
  destruct arr as [|y arr].
  - replace (k <? len - 1) with false
      by (symmetry; apply Nat.ltb_ge; simpl in Hlen; lia).
    simpl; now rewrite !app_nil_r.
  - replace (k <? len - 1) with true
      by (symmetry; apply Nat.ltb_lt; simpl in Hlen; lia).
    now rewrite <- app_assoc.
Qed.

Lemma fragments_from_lines (h : option bool) (len k : nat)
  (arr : list jsstring) :
  map line (fragments_from h len k arr) = arr /\
  map fragment_key (fragments_from h len k arr) = seq k (List.length arr) /\
  Forall (fun f => br f = (fragment_key f <? len - 1) /\
                   span_class f = line_class h)
    (fragments_from h len k arr).
Proof.
  revert k; induction arr as [|x arr IH]; intros k; simpl;
    [repeat split; constructor|].
  destruct (IH (S k)) as (E1 & E2 & E3).
  rewrite E1, E2; repeat split; trivial.
  constructor; auto.
Qed.

Lemma fragments_from_br (h : option bool) (len k : nat)
  (arr : list jsstring) :
  len = k + List.length arr ->
  List.length (filter br (fragments_from h len k arr)) =
  List.length arr - 1.
Proof.
  revert k; induction arr as [|x arr IH]; intros k Hlen; trivial.
  cbn [fragments_from filter br].
  specialize (IH (S k)); simpl in Hlen.
  destruct arr as [|y arr].
  - replace (k <? len - 1) with false
      by (symmetry; apply Nat.ltb_ge; simpl in Hlen; lia).
    reflexivity.
  - replace (k <? len - 1) with true
      by (symmetry; apply Nat.ltb_lt; simpl in Hlen; lia).
    cbn [List.length]; rewrite IH by lia; simpl; lia.
Qed.

End SafeTextFacts.

(** X1. [SafeText] shows its text as it is: it renders nothing for the
    empty text and for no other; else the lines it renders hold no line
    feed, and with a line feed for every [<br />] they read as the text.
    There are as many [<br />] as line feeds in the text, one after every
    line but the last, and the keys of the fragments are their places. *)
Theorem SafeText_shows_text (text : jsstring) (highlight : option bool) :
  match SafeText text highlight with
  | None => text = []
  | Some l =>
      text <> [] /\
      fragments_text l = text /\
      Forall (fun f => ~ In 10%N (line f)) l /\
      List.length (filter br l) = count_occ N.eq_dec text 10%N /\
      map fragment_key l = seq 0 (List.length l) /\
      Forall (fun f => br f = (fragment_key f <? List.length l - 1)) l
  end.
Proof.
  unfold SafeText.
  destruct text as [|c text]; [reflexivity|].
  cbn [truthy negb].
  set (s := c :: text).
  destruct (fragments_from_lines highlight (List.length (split_lines s)) 0
              (split_lines s)) as (EL & EK & EB).
  assert (List.length
            (fragments_from highlight (List.length (split_lines s)) 0
               (split_lines s)) = List.length (split_lines s)) as Elen
    by (rewrite <- EL at 3; now rewrite length_map).
  split; [discriminate|].
  split; [|split; [|split; [|split]]].
  - rewrite fragments_from_text by reflexivity.
    apply (split_lines_from_join [] s).
  - apply Forall_forall; intros f Hf.
    pose proof (split_lines_from_no_feed [] s (fun H => H)) as F.
    rewrite Forall_forall in F; apply F.
    fold (split_lines s); rewrite <- EL; now apply in_map.
  - rewrite fragments_from_br by reflexivity.
    unfold split_lines; rewrite split_lines_from_length; simpl; lia.
  - now rewrite Elen.
  - rewrite Elen; eapply Forall_impl; [|exact EB].
    intros f [H _]; exact H.
Qed.

(** ** The sidebar *)

Section SidebarFacts.

Lemma getDiffSegments_texts (original corrected : jsstring) :
  exists segO segC,
    getDiffSegments original corrected = Some (segO, segC) /\
    map children segO = words original /\
    map children segC = words corrected.
Proof.
  destruct (getDiffSegments_run original corrected) as (st & Hw & E).
  destruct (while_text _ _ _ Hw) as [TO TC].
  eauto.
Qed.

Lemma getDiffSegments_same (s : jsstring) :
  exists seg,
    getDiffSegments s s = Some (seg, seg) /\
    Forall (fun n => is_match n = true /\ className n = Some slate) seg.
Proof.
  destruct (getDiffSegments_run s s) as (st & Hw & E).
  assert (inv_same init) as H0 by (repeat split; constructor).
  destruct (@while_inv _ _ inv_same (@inv_same_Step (words s)) _ _ _ H0 Hw)
    as [(_ & Hseg & HM) _].
  exists (originalSegments st); rewrite E, <- Hseg; auto.
Qed.

Lemma space_token_not_word (t : jsstring) :
  is_space_token t = true -> is_word_token t = false.
Proof.
  unfold is_space_token, is_word_token; destruct t as [|c t]; simpl; trivial.
  destruct (is_space c); simpl; [reflexivity | discriminate].
Qed.

(** The style of a span of a Delete: that of an error for a word, none for
    white space. *)
Lemma okO_delete (O C : list jsstring) (n : node) :
  okO O C n -> is_delete n = true ->
  (is_word_token (children n) = true -> className n = Some red) /\
  (is_space_token (children n) = true -> className n = None).
Proof.
  destruct n as [k cl t]; unfold okO, is_delete;
    destruct k; cbn; try discriminate; intros (_ & H & Hc) _; split;
    trivial; intros K.
  - apply space_token_all in K; congruence.
  - apply space_token_not_word in H; congruence.
Qed.

Lemma getDiffSegments_nothing_corrected (s : jsstring) :
  exists segO,
    getDiffSegments s [] = Some (segO, []) /\
    map children segO = words s /\
    Forall (fun n =>
              is_delete n = true /\
              (is_word_token (children n) = true ->
               className n = Some red) /\
              (is_space_token (children n) = true -> className n = None))
      segO.
Proof.
  destruct (getDiffSegments_run s []) as (st & Hw & E).
  change (words []) with (@nil jsstring) in Hw.
  assert (inv_removed init) as H0 by (split; constructor).
  destruct (@while_inv _ _ inv_removed (@inv_removed_Step (words s)) _ _ _ H0
              Hw) as [(Hseg & HD) _].
  destruct (while_text _ _ _ Hw) as [TO _].
  destruct (while_node _ _ _ Hw) as [NO _].
  exists (originalSegments st); rewrite E, Hseg.
  repeat split; trivial.
  rewrite Forall_forall in *; intros n Hn.
  split; [auto|].
  apply (okO_delete (NO n Hn) (HD n Hn)).
Qed.

Lemma pane_text_nodes (l : list node) :
  pane_text (map Node l) = concat (map children l).
Proof.
  unfold pane_text; induction l as [|n l IH]; simpl; congruence.
Qed.

Lemma SafeText_text (text : jsstring) :
  match SafeText text None with
  | Some l => fragments_text l = text
  | None => text = []
  end.
Proof.
  unfold SafeText; destruct text as [|c text]; [reflexivity|].
  cbn [truthy negb].
  rewrite fragments_from_text by reflexivity.
  apply (split_lines_from_join [] (c :: text)).
Qed.

End SidebarFacts.

(** X2. With an analysis and not loading, the sidebar shows the results. The
    pane of the original text reads as the original text, or is empty when
    there is none. The pane of the corrected text is shown when the
    corrected text is not empty, and reads as the corrected text, with a
    diff and without; the paraphrase is shown when it is not empty and
    reads as it is. The badge is the detected language, "Detected" when it
    is empty. *)
Theorem Sidebar_panes (a : AnalysisResponse) (originalText : option jsstring) :
  exists badge orig corr para,
    Sidebar (Some a) originalText false =
      Some (Results badge orig corr para) /\
    badge = or_else (Some (detected_language a)) (js "Detected") /\
    pane_text orig = or_else originalText [] /\
    match corr with
    | Some p => corrected_text a <> [] /\ pane_text p = corrected_text a
    | None => corrected_text a = []
    end /\
    match para with
    | Some (t, r) =>
        paraphrase a <> [] /\ t = tone a /\
        exists l, r = Some l /\ fragments_text l = paraphrase a
    | None => paraphrase a = []
    end.
Proof.
  unfold Sidebar.
  assert (exists orig corr,
            (if truthy_opt originalText
             then option_map
                    (fun r => (map Node (fst r), map Node (snd r)))
                    (getDiffSegments (text_of originalText)
                       (corrected_text a))
             else Some ([], [SafeTextEl "safe"
                               (SafeText (corrected_text a) None)])) =
            Some (orig, corr) /\
            pane_text orig = or_else originalText [] /\
            pane_text corr = corrected_text a) as (orig & corr & E & TO & TC).
  { unfold or_else; destruct (truthy_opt originalText) eqn:T.
    - destruct (getDiffSegments_texts (text_of originalText)
                  (corrected_text a)) as (segO & segC & E & TO & TC).
      rewrite E; cbn [option_map fst snd].
      do 2 eexists; split; [reflexivity|].
      rewrite !pane_text_nodes, TO, TC, !words_concat; auto.
    - do 2 eexists; split; [reflexivity|]; split; [reflexivity|].
      pose proof (SafeText_text (corrected_text a)) as H.
      unfold pane_text; cbn [flat_map segment_text].
      destruct (SafeText (corrected_text a) None); rewrite app_nil_r; auto. }
  rewrite E.
  do 4 eexists; split; [reflexivity|].
  split; [reflexivity|].
  split; [exact TO|].
  split.
  - destruct (corrected_text a); [reflexivity|].
    split; [discriminate | exact TC].
  - pose proof (SafeText_text (paraphrase a)) as H.
    destruct (paraphrase a) as [|c p] eqn:P; [reflexivity|].
    cbn [truthy].
    split; [discriminate|]; split; [reflexivity|].
    destruct (SafeText (c :: p) None) as [l|]; [eauto | discriminate].
Qed.

(** X3. After "Apply Improvements" the editor holds the corrected text, and
    the sidebar, which compares the text of the editor with the corrected
    text, marks nothing: the two panes hold the same spans, all of them
    unchanged text, and read as the corrected text. *)
Theorem apply_leaves_nothing_marked (st : app) (a : AnalysisResponse) :
  analysis st = Some a ->
  truthy (corrected_text a) = true ->
  isLoading st = false ->
  content (applyImprovements st) = corrected_text a /\
  exists badge seg para,
    sidebar (applyImprovements st) =
      Some (Results badge (map Node seg) (Some (map Node seg)) para) /\
    Forall (fun n => is_match n = true /\ className n = Some slate) seg /\
    concat (map children seg) = corrected_text a.
Proof.
  intros Ha Ht Hl.
  unfold applyImprovements; rewrite Ha.
  split; [reflexivity|].
  unfold sidebar, Sidebar.
  cbn [showToast set_toast set_content analysis content isLoading
       truthy_opt text_of].
  rewrite Hl, Ha, Ht.
  destruct (getDiffSegments_same (corrected_text a)) as (seg & E & F).
  destruct (getDiffSegments_texts (corrected_text a) (corrected_text a))
    as (segO & segC & E' & TO & _).
  rewrite E; cbn [option_map fst snd].
  do 3 eexists; split; [reflexivity|]; split; [exact F|].
  rewrite E in E'; injection E' as <- _.
  now rewrite TO, words_concat.
Qed.

Lemma apply_leaves_nothing_marked_witness :
  content (applyImprovements sample_checked) =
    corrected_text sample_analysis /\
  exists badge seg para,
    sidebar (applyImprovements sample_checked) =
      Some (Results badge (map Node seg) (Some (map Node seg)) para) /\
    Forall (fun n => is_match n = true /\ className n = Some slate) seg /\
    concat (map children seg) = corrected_text sample_analysis.
Proof.
  apply (@apply_leaves_nothing_marked sample_checked sample_analysis);
    reflexivity.
Defined.

(** X4. When a paraphrase comes back and there is no corrected text yet,
    the corrected text of the analysis is the empty string, so that the
    sidebar compares the text of the editor with nothing: it shows no pane
    of corrected text, and in the pane of the original text every token of
    the editor as a Delete, the words in the style of an error, the white
    space in none. *)
Theorem paraphrase_alone_marks_all (style : jsstring) (p : option jsstring)
  (st : app) :
  truthy_opt (corrected_of st) = false ->
  truthy (content st) = true ->
  exists badge segO para,
    sidebar (handleParaphrase_end style (resolved p) st) =
      Some (Results badge (map Node segO) None para) /\
    map children segO = words (content st) /\
    Forall (fun n =>
              is_delete n = true /\
              (is_word_token (children n) = true ->
               className n = Some red) /\
              (is_space_token (children n) = true -> className n = None))
      segO.
Proof.
  intros Hc Ht.
  unfold sidebar, Sidebar, handleParaphrase_end.
  cbn [showToast set_toast set_analysis set_isLoading analysis content
       isLoading truthy_opt text_of corrected_text].
  unfold corrected_of in Hc.
  assert (or_else (option_map corrected_text (analysis st)) [] = []) as Z
    by (unfold or_else; now rewrite Hc).
  rewrite !Z, Ht.
  destruct (getDiffSegments_nothing_corrected (content st))
    as (segO & E & TO & F).
  rewrite E; cbn [option_map fst snd map truthy corrected_text].
  do 3 eexists; split; [reflexivity|]; auto.
Qed.

Lemma paraphrase_alone_marks_all_witness :
  exists badge segO para,
    sidebar (handleParaphrase_end (js "normal")
               (resolved (Some (js "All is well"))) sample_typed) =
      Some (Results badge (map Node segO) None para) /\
    map children segO = words (content sample_typed) /\
    Forall (fun n =>
              is_delete n = true /\
              (is_word_token (children n) = true ->
               className n = Some red) /\
              (is_space_token (children n) = true -> className n = None))
      segO.
Proof.
  apply (@paraphrase_alone_marks_all (js "normal")
           (Some (js "All is well")) sample_typed); reflexivity.
Defined.

(** ** The word counter *)

Section WordCount.






Lemma trim_start_split (u : jsstring) :
  exists sp, u = sp ++ trim_start u /\ forallb is_space sp = true.
Proof.
  induction u as [|c u (sp & E & F)]; simpl.
  - exists []; auto.
  - destruct (is_space c) eqn:Hc.
    + exists (c :: sp); simpl; rewrite Hc, F; split; [congruence | reflexivity].
    + exists []; auto.
Qed.

Lemma trim_start_head (u : jsstring) :
  match trim_start u with
  | [] => True
  | c :: _ => is_space c = false
  end.
Proof.
  induction u as [|c u IH]; simpl; trivial.
  destruct (is_space c) eqn:Hc; simpl; trivial.
Qed.

(** [trim] takes white space off the two ends. *)
Lemma trim_split (s : jsstring) :
  exists sp1 sp2,
    s = sp1 ++ trim s ++ sp2 /\
    forallb is_space sp1 = true /\ forallb is_space sp2 = true.
Proof.
  unfold trim.
  destruct (trim_start_split s) as (sp1 & E1 & F1).
  destruct (trim_start_split (rev (trim_start s))) as (sp2 & E2 & F2).
  exists sp1, (rev sp2); repeat split; trivial.
  - rewrite E1 at 1; f_equal.
    rewrite <- (rev_involutive (trim_start s)) at 1.
    rewrite E2 at 1; now rewrite rev_app_distr.
  - now rewrite forallb_rev.
Qed.







End WordCount.


(** ** The handlers of the page *)

Ltac fields :=
  unfold isAuthenticated in *;
  cbn [user isAuthModalOpen email isAuthLoading content selectedMode
       paraphraseStyle analysis isLoading isPickyMode toast isStyleMenuOpen
       isHistoryOpen historyItems storage effects
       set_user set_isAuthModalOpen set_email set_isAuthLoading set_content
       set_selectedMode set_paraphraseStyle set_analysis set_isLoading
       set_isPickyMode set_toast set_isStyleMenuOpen set_isHistoryOpen
       set_historyItems set_storage set_effects showToast emit] in *.

Ltac simple_scrutinee x :=
  lazymatch x with
  | context [match _ with _ => _ end] => fail
  | context [if _ then _ else _] => fail
  | _ => idtac
  end.

Ltac branches :=
  repeat match goal with
  | |- context [if ?b then _ else _] =>
      simple_scrutinee b; destruct b eqn:?
  | |- context [match ?x with _ => _ end] =>
      simple_scrutinee x; destruct x eqn:?
  end.

Ltac handlers :=
  unfold handleSignup_start, handleSignup_end, loadFromHistory,
    deleteFromHistory, fetchHistory, applyImprovements, handleCopy,
    handleCheckGrammar_start, handleCheckGrammar_end,
    handleParaphrase_start, handleParaphrase_end, handleModeSelect,
    updateStyleSecurely in *.

Lemma includes_In (l : list jsstring) (s : jsstring) :
  includes l s = true <-> In s l.
Proof.
  unfold includes; rewrite existsb_exists; split.
  - intros (x & Hx & E).
    destruct (str_eqb_spec s x); [subst; trivial | discriminate].
  - intros H; exists s; split; trivial.
    destruct (str_eqb_spec s s); congruence.
Qed.

Lemma includes_at_spaces (sp : jsstring) :
  forallb is_space sp = true -> includes_at sp = false.
Proof.
  unfold includes_at.
  induction sp as [|c sp IH]; cbn [forallb existsb]; trivial.
  intros H; apply andb_prop in H; destruct H as [Hc Hsp].
  rewrite (IH Hsp), orb_false_r.
  destruct (N.eqb_spec 64 c) as [<-|]; [discriminate Hc | reflexivity].
Qed.

(** [trim] keeps the at sign. *)
Lemma includes_at_trim (s : jsstring) :
  includes_at (trim s) = includes_at s.
Proof.
  destruct (trim_split s) as (sp1 & sp2 & E & F1 & F2).
  pose proof (includes_at_spaces sp1 F1) as A1.
  pose proof (includes_at_spaces sp2 F2) as A2.
  unfold includes_at in *.
  remember (trim s) as t eqn:Et; clear Et.
  rewrite E, !existsb_app.
  unfold jsstring, code_unit in *.
  now rewrite A1, A2, orb_false_r.
Qed.

(** The toolbar, button by button. *)
Lemma toolbar_cases (now : Z) (today : jsstring) (exported : bool)
  (index : nat) (st : app) (P : app -> Prop) :
  (isAuthenticated st = false -> In index [1; 2; 3; 5] ->
   P (set_isAuthModalOpen true st)) ->
  (index = 0 -> truthy (trim (textToExport st)) = false ->
   P (showToast (js "Nothing to copy") info st)) ->
  (index = 0 -> truthy (trim (textToExport st)) = true ->
   P (showToast (js "Text copied to clipboard") success
        (emit (ClipboardWrite (textToExport st)) st))) ->
  (isAuthenticated st = true -> index = 1 \/ index = 2 ->
   forall m,
     P (showToast m info st) /\
     (truthy (trim (textToExport st)) = true ->
      P (showToast m success
           (emit (if index =? 1 then PdfSave (textToExport st)
                  else TxtDownload (textToExport st)) st)))) ->
  (isAuthenticated st = true -> index = 3 ->
   P (set_isHistoryOpen (negb (isHistoryOpen st)) (fetchHistory st))) ->
  (index = 4 ->
   P (showToast (js "Workspace cleared") info
        (set_analysis None (set_content [] st)))) ->
  (isAuthenticated st = true -> index = 5 ->
   forall m,
     P (showToast m info st) /\
     forall l,
       parse_saved (storage st) = Some l ->
       (truthy_opt (corrected_of st) || truthy (trim (content st))) = true ->
       P (showToast m success
            (set_storage
               (Saved (l ++ [Entry now (textToExport st) today])) st))) ->
  (5 < index -> P st) ->
  P (handleToolbarAction now today exported index st).
Proof.
  intros Gate Copy0 Copy1 File Hist Clear Save Other.
  unfold handleToolbarAction.
  destruct (isAuthenticated st) eqn:A.
  - rewrite andb_false_r.
    destruct index as [|[|[|[|[|[|index]]]]]].
    + destruct (truthy (trim (textToExport st))) eqn:T; cbn [negb]; auto.
    + destruct (File eq_refl (or_introl eq_refl)
                  (js "No content to export")) as [F1 _].
      destruct (File eq_refl (or_introl eq_refl)
                  (js "Failed to generate PDF")) as [F2 _].
      destruct (File eq_refl (or_introl eq_refl)
                  (js "PDF exported successfully")) as [_ F3].
      destruct (truthy (trim (textToExport st))) eqn:T; cbn [negb]; auto.
      destruct exported; auto.
    + destruct (File eq_refl (or_intror eq_refl)
                  (js "No content to download")) as [F1 _].
      destruct (File eq_refl (or_intror eq_refl)
                  (js "Failed to download TXT")) as [F2 _].
      destruct (File eq_refl (or_intror eq_refl)
                  (js "Downloaded as TXT")) as [_ F3].
      destruct (truthy (trim (textToExport st))) eqn:T; cbn [negb]; auto.
      destruct exported; auto.
    + auto.
    + auto.
    + destruct (Save eq_refl eq_refl (js "Nothing to save")) as [S1 _].
      destruct (Save eq_refl eq_refl (js "Failed to save")) as [S2 _].
      destruct (Save eq_refl eq_refl (js "Saved to history")) as [_ S3].
      destruct (negb (truthy_opt (corrected_of st)) &&
                negb (truthy (trim (content st)))) eqn:N; auto.
      destruct (parse_saved (storage st)) as [l|] eqn:Ps; auto.
      apply S3; trivial.
      destruct (truthy_opt (corrected_of st)),
        (truthy (trim (content st))); simpl in N |- *; congruence.
    + apply Other; lia.
  - rewrite andb_true_r.
    destruct index as [|[|[|[|[|[|index]]]]]]; cbn [existsb Nat.eqb orb];
      try (apply Gate; simpl; tauto).
    + destruct (truthy (trim (textToExport st))) eqn:T; cbn [negb]; auto.
    + auto.
    + apply Other; lia.
Qed.

Ltac toolbar :=
  apply toolbar_cases;
  [ intros ?A ?Hi | intros ?Hi ?T | intros ?Hi ?T
  | intros ?A ?Hi ?m; split; [|intros ?T] | intros ?A ?Hi | intros ?Hi
  | intros ?A ?Hi ?m; split; [|intros ?l ?Pl ?T] | intros ?Hi ];
  cbv beta.

Lemma style_step (ev : event) (st : app) :
  In (paraphraseStyle st) STYLE_WHITELIST ->
  In (paraphraseStyle (handle ev st)) STYLE_WHITELIST.
Proof.
  intros H.
  destruct ev; cbn [handle];
    try toolbar;
    handlers; branches; fields; trivial;
    try (apply includes_In; assumption); try (now left).
Qed.

Lemma request_step (ev : event) (st : app) :
  In (paraphraseStyle st) STYLE_WHITELIST ->
  Forall request_ok (effects st) ->
  Forall request_ok (effects (handle ev st)).
Proof.
  intros H F.
  destruct ev; cbn [handle];
    try toolbar;
    handlers; unfold blank_content, invalid_email; branches; fields; trivial;
    repeat match goal with
    | H : negb _ = false |- _ => apply negb_false_iff in H
    | H : _ || _ = false |- _ => apply orb_false_elim in H; destruct H
    end;
    apply Forall_app; split; trivial;
    (constructor; [|constructor]); cbn [request_ok];
    rewrite ?includes_at_trim; auto; now destruct (index =? 1).
Qed.

Lemma analysis_pending_tone (mode style : jsstring) (st : app) :
  Forall request_ok (effects st) ->
  analysis_pending mode style st = true ->
  In style STYLE_WHITELIST.
Proof.
  unfold analysis_pending; intros F H.
  apply existsb_exists in H; destruct H as (ef & Hin & E).
  rewrite Forall_forall in F; apply F in Hin.
  destruct ef as [t m tn|e|t|t|t| |]; try discriminate.
  apply andb_prop in E; destruct E as [_ E].
  destruct (str_eqb_spec tn style); [subst | discriminate].
  apply Hin.
Qed.

Lemma signup_pending_sent (e : jsstring) (st : app) :
  signup_pending e st = true -> In (SignupRequest e) (effects st).
Proof.
  unfold signup_pending; intros H.
  apply existsb_exists in H; destruct H as (ef & Hin & E).
  destruct ef as [t m tn|e'|t|t|t| |]; try discriminate.
  destruct (str_eqb_spec e' e); [subst; trivial | discriminate].
Qed.

Lemma tone_step (ev : event) (st : app) :
  Forall request_ok (effects st) ->
  (forall a, analysis st = Some a -> In (tone a) STYLE_WHITELIST) ->
  enabled ev st = true ->
  forall a, analysis (handle ev st) = Some a -> In (tone a) STYLE_WHITELIST.
Proof.
  intros F H En.
  destruct ev; cbn [handle enabled] in *;
    try toolbar;
    handlers; branches; fields; intros;
    try match goal with
    | H : Some _ = Some _ |- _ => injection H as <-; cbn [tone]
    end;
    eauto using analysis_pending_tone; try discriminate;
    match goal with
    | H : forall a, _ = Some a -> _ |- _ => apply H; congruence
    end.
Qed.

(** The effects are a log: a handler adds to it and takes nothing away. *)
Lemma effects_grow (ev : event) (st : app) (ef : effect) :
  In ef (effects st) -> In ef (effects (handle ev st)).
Proof.
  intros H.
  destruct ev; cbn [handle];
    try toolbar;
    handlers; branches; fields; trivial;
    apply in_or_app; auto.
Qed.

Lemma user_step (ev : event) (st : app) :
  Forall request_ok (effects st) ->
  (forall e, user st = Some (with_email e) ->
     truthy e = true /\ includes_at e = true /\
     In (SignupRequest e) (effects st)) ->
  enabled ev st = true ->
  forall e, user (handle ev st) = Some (with_email e) ->
    truthy e = true /\ includes_at e = true /\
    In (SignupRequest e) (effects (handle ev st)).
Proof.
  intros F H En e Hu.
  assert (user st = Some (with_email e) \/
          exists ok, ev = SignupEnds e ok) as [Old|(ok & ->)].
  { revert Hu; clear.
    destruct ev; cbn [handle]; try toolbar;
      handlers; branches; fields; auto; try discriminate.
    intros [= <-]; eauto. }
  - destruct (H e Old) as (T & A & S).
    repeat split; trivial; now apply effects_grow.
  - cbn [enabled] in En; apply signup_pending_sent in En.
    rewrite Forall_forall in F; pose proof (F _ En) as (T & A).
    repeat split; trivial; now apply effects_grow.
Qed.

Lemma auth_step (s : stored) (ev : event) (st : app) :
  (isAuthenticated st = false ->
   storage st = s /\ isHistoryOpen st = false /\ historyItems st = [] /\
   Forall no_export (effects st)) ->
  enabled ev st = true ->
  isAuthenticated (handle ev st) = false ->
  storage (handle ev st) = s /\ isHistoryOpen (handle ev st) = false /\
  historyItems (handle ev st) = [] /\
  Forall no_export (effects (handle ev st)).
Proof.
  intros H En.
  destruct (isAuthenticated st) eqn:A.
  - intros Hn; exfalso; revert Hn.
    unfold isAuthenticated in A.
    destruct (user st) as [u|] eqn:U; [clear A | discriminate].
    destruct ev; cbn [handle];
      try toolbar;
      handlers; fields; rewrite ?U; branches; fields; rewrite ?U;
      try discriminate; congruence.
  - destruct (H eq_refl) as (HS & HO & HI & HE).
    destruct ev; cbn [handle enabled] in *; try rewrite HO in En;
      try discriminate En;
      try toolbar;
      try congruence;
      handlers; branches; fields; try discriminate;
      repeat split; trivial;
      try (apply Forall_app; split; trivial; repeat constructor).
Qed.

Lemma page_inv_step (s : stored) (ev : event) (st : app) :
  page_inv s st -> enabled ev st = true -> page_inv s (handle ev st).
Proof.
  intros (I1 & I2 & I3 & I4 & I5) En.
  split; [now apply style_step|].
  split; [now apply request_step|].
  split; [now apply tone_step|].
  split; [now apply auth_step|].
  now apply user_step.
Qed.

Lemma page_inv_initial (s : stored) : page_inv s (initial s).
Proof.
  unfold page_inv; cbn; repeat split; auto; try discriminate.
Qed.

Lemma run_inv (P : app -> Prop) :
  (forall ev st, P st -> enabled ev st = true -> P (handle ev st)) ->
  forall evs st st', P st -> run evs st = Some st' -> P st'.
Proof.
  intros HP; induction evs as [|ev evs IH]; intros st st' Hst; simpl.
  - now intros [= <-].
  - destruct (enabled ev st) eqn:En; [|discriminate].
    apply IH, HP; trivial.
Qed.

Lemma run_page_inv (s : stored) (evs : list event) (st : app) :
  run evs (initial s) = Some st -> page_inv s st.
Proof.
  intros H.
  apply (@run_inv (page_inv s)) with (evs := evs) (st := initial s);
    [|apply page_inv_initial | exact H].
  intros ev st0; apply page_inv_step.
Qed.


(** X6. [updateStyleSecurely] takes any string and leaves a style of the
    list: a style of the list is set, the menu closed and nothing logged;
    for any other string the style is set back to "normal" with a warning
    on the console, and neither the menu nor the toast changes. *)
Theorem updateStyleSecurely_whitelist (style : jsstring) (st : app) :
  let st' := updateStyleSecurely style st in
  In (paraphraseStyle st') STYLE_WHITELIST /\
  (In style STYLE_WHITELIST ->
   paraphraseStyle st' = style /\ isStyleMenuOpen st' = false /\
   toast st' = Some (js "Paraphrase style set to " ++ style, info) /\
   effects st' = effects st) /\
  (~ In style STYLE_WHITELIST ->
   paraphraseStyle st' = js "normal" /\
   isStyleMenuOpen st' = isStyleMenuOpen st /\
   toast st' = toast st /\
   effects st' = effects st ++ [ConsoleWarn]).
Proof.
  unfold updateStyleSecurely.
  destruct (includes STYLE_WHITELIST style) eqn:W; cbv zeta; fields.
  - apply includes_In in W.
    split; [exact W|]; split; [auto | tauto].
  - assert (~ In style STYLE_WHITELIST) as N
      by (rewrite <- includes_In; congruence).
    split; [now left|]; split; [tauto | auto].
Qed.

(** X7. [handleModeSelect] never meets the refusal of
    [updateStyleSecurely]: for every writing mode the style of its entry in
    [styleMap] is in the list, so that it is set, with the mode, and nothing
    is logged. *)
Theorem handleModeSelect_sets_style (mode : WritingMode) (st : app) :
  let st' := handleModeSelect mode st in
  selectedMode st' = mode /\
  lookup (mode_value mode) styleMap = Some (paraphraseStyle st') /\
  In (paraphraseStyle st') STYLE_WHITELIST /\
  isStyleMenuOpen st' = false /\
  effects st' = effects st.
Proof.
  assert (exists v,
            lookup (mode_value mode) styleMap = Some v /\
            truthy v = true /\ includes STYLE_WHITELIST v = true)
    as (v & L & T & W).
  { destruct mode;
      match goal with
      | |- exists v, lookup ?k ?m = _ /\ _ =>
          let r := eval vm_compute in (lookup k m) in
          match r with Some ?x => exists x end
      end; repeat split; vm_compute; reflexivity. }
  cbv zeta; unfold handleModeSelect, updateStyleSecurely.
  rewrite L, T, W; fields.
  repeat split; trivial.
  now apply includes_In.
Qed.

(** X8. In every state the page can come to, the style of the paraphrase
    is one of the list; every request for an analysis that was sent carries
    a text that is not blank, the mode "grammar" or "paraphrase" and a style
    of the list, and every signup an address that is not empty and has an at
    sign; and the tone of the analysis shown is a style of the list. *)
Theorem requests_well_formed (s : stored) (evs : list event) (st : app) :
  run evs (initial s) = Some st ->
  In (paraphraseStyle st) STYLE_WHITELIST /\
  Forall request_ok (effects st) /\
  (forall a, analysis st = Some a -> In (tone a) STYLE_WHITELIST).
Proof.
  intros H; destruct (run_page_inv s evs H) as (I1 & I2 & I3 & _).
  auto.
Qed.

Lemma requests_well_formed_witness :
  exists st,
    run sample_visit (initial Absent) = Some st /\
    In (paraphraseStyle st) STYLE_WHITELIST /\
    Forall request_ok (effects st) /\
    (forall a, analysis st = Some a -> In (tone a) STYLE_WHITELIST).
Proof.
  eexists; split; [vm_compute; reflexivity|].
  apply (@requests_well_formed Absent sample_visit); vm_compute; reflexivity.
Defined.

(** X9. The buttons that ask for an account cannot be gone around: in every
    state the page can come to in which nobody is signed in, the store is
    as it was when the page was opened, the history is closed and empty,
    and no file was exported. *)
Theorem guest_changes_nothing (s : stored) (evs : list event) (st : app) :
  run evs (initial s) = Some st ->
  isAuthenticated st = false ->
  storage st = s /\ isHistoryOpen st = false /\ historyItems st = [] /\
  Forall no_export (effects st).
Proof.
  intros H A; destruct (run_page_inv s evs H) as (_ & _ & _ & I4 & _).
  auto.
Qed.

Lemma guest_changes_nothing_witness :
  exists st,
    run sample_guest_visit (initial (Saved [])) = Some st /\
    storage st = Saved [] /\ isHistoryOpen st = false /\
    historyItems st = [] /\ Forall no_export (effects st).
Proof.
  eexists; split; [vm_compute; reflexivity|].
  apply (@guest_changes_nothing (Saved []) sample_guest_visit);
    vm_compute; reflexivity.
Defined.

Lemma trim_start_fixed (u : jsstring) :
  match u with [] => True | c :: _ => is_space c = false end ->
  trim_start u = u.
Proof.
  destruct u as [|c u]; simpl; [trivial|]; now intros ->.
Qed.

Lemma trim_trim (s : jsstring) : trim (trim s) = trim s.
Proof.
  unfold trim.
  set (a := trim_start s).
  set (b := trim_start (rev a)).
  assert (Hb : trim_start b = b)
    by (apply trim_start_fixed, trim_start_head).
  assert (Ha : trim_start (rev b) = rev b).
  { apply trim_start_fixed.
    destruct (trim_start_split (rev a)) as (sp & E & _); fold b in E.
    apply (f_equal (@rev _)) in E.
    rewrite rev_involutive, rev_app_distr in E.
    pose proof (trim_start_head s) as Hh; fold a in Hh.
    destruct (rev b) as [|c r]; [trivial|].
    rewrite E in Hh; exact Hh. }
  now rewrite Ha, rev_involutive, Hb.
Qed.

Lemma trimmed_step (ev : event) (st : app) :
  Forall trimmed_request (effects st) ->
  Forall trimmed_request (effects (handle ev st)).
Proof.
  intros F.
  destruct ev; cbn [handle];
    try toolbar;
    handlers; unfold blank_content, invalid_email; branches; fields; trivial;
    apply Forall_app; split; trivial;
    (constructor; [|constructor]); cbn [trimmed_request];
    auto using trim_trim; now destruct (index =? 1).
Qed.

Lemma run_trimmed (s : stored) (evs : list event) (st : app) :
  run evs (initial s) = Some st -> Forall trimmed_request (effects st).
Proof.
  intros H.
  apply (@run_inv (fun st => Forall trimmed_request (effects st)))
    with (evs := evs) (st := initial s); [|constructor | exact H].
  intros ev st0 F _; now apply trimmed_step.
Qed.

(** X10. Who is signed in with an address has a trimmed address, one that
    [trim] leaves as it is, that is not empty and has an at sign, and a
    signup with exactly this address was sent. *)
Theorem signed_in_address (s : stored) (evs : list event) (st : app)
  (e : jsstring) :
  run evs (initial s) = Some st ->
  user st = Some (with_email e) ->
  trim e = e /\ truthy e = true /\ includes_at e = true /\
  In (SignupRequest e) (effects st).
Proof.
  intros H U; destruct (run_page_inv s evs H) as (_ & _ & _ & _ & I5).
  destruct (I5 e U) as (T & A & S).
  pose proof (run_trimmed s evs H) as F.
  rewrite Forall_forall in F.
  split; [exact (F _ S) | auto].
Qed.

Lemma signed_in_address_witness :
  exists st,
    run sample_visit (initial Absent) = Some st /\
    trim (js "me@example.org") = js "me@example.org" /\
    truthy (js "me@example.org") = true /\
    includes_at (js "me@example.org") = true /\
    In (SignupRequest (js "me@example.org")) (effects st).
Proof.
  eexists; split; [vm_compute; reflexivity|].
  apply (@signed_in_address Absent sample_visit); vm_compute; reflexivity.
Defined.

(** ** The history *)

Section History.

Lemma insert_desc_perm (x : HistoryEntry) (l : list HistoryEntry) :
  Permutation (insert_desc x l) (x :: l).
Proof.
  induction l as [|y l IH]; simpl; [reflexivity|].
  destruct (id y <=? id x)%Z; [reflexivity|].
  rewrite IH; apply perm_swap.
Qed.

Lemma sort_desc_perm (l : list HistoryEntry) : Permutation (sort_desc l) l.
Proof.
  induction l as [|x l IH]; simpl; [reflexivity|].
  rewrite insert_desc_perm; now constructor.
Qed.

Lemma insert_desc_sorted (x : HistoryEntry) (l : list HistoryEntry) :
  StronglySorted newer_first l ->
  StronglySorted newer_first (insert_desc x l).
Proof.
  induction 1 as [|y l S IH F]; simpl.
  - repeat constructor.
  - destruct (Z.leb_spec (id y) (id x)) as [Hle|Hlt].
    + constructor; [now constructor|].
      constructor; [exact Hle|].
      eapply Forall_impl; [|exact F].
      unfold newer_first; intros z Hz; lia.
    + constructor; [exact IH|].
      eapply Permutation_Forall; [symmetry; apply insert_desc_perm|].
      constructor; [unfold newer_first; lia | exact F].
Qed.

Lemma sort_desc_sorted (l : list HistoryEntry) :
  StronglySorted newer_first (sort_desc l).
Proof.
  induction l as [|x l IH]; simpl; [constructor|].
  now apply insert_desc_sorted.
Qed.

(** The entries of one [id] keep their order. *)
Lemma insert_desc_stable (v : Z) (x : HistoryEntry) (l : list HistoryEntry) :
  filter (fun e => (id e =? v)%Z) (insert_desc x l) =
  filter (fun e => (id e =? v)%Z) (x :: l).
Proof.
  induction l as [|y l IH]; [reflexivity|].
  cbn [insert_desc].
  destruct (Z.leb_spec (id y) (id x)) as [Hle|Hlt]; [reflexivity|].
  cbn [filter] in *; rewrite IH.
  destruct (Z.eqb_spec (id y) v), (Z.eqb_spec (id x) v); trivial; lia.
Qed.

Lemma sort_desc_stable (v : Z) (l : list HistoryEntry) :
  filter (fun e => (id e =? v)%Z) (sort_desc l) =
  filter (fun e => (id e =? v)%Z) l.
Proof.
  induction l as [|x l IH]; [reflexivity|].
  cbn [sort_desc]; rewrite insert_desc_stable; cbn [filter].
  now rewrite IH.
Qed.

End History.

(** X11. [fetchHistory] shows what the store holds, newest first: the
    entries shown are those of the store, by falling [id], those of one [id]
    in the order of the store; it shows nothing when the store cannot be
    parsed; and it does not write to the store. *)
Theorem fetchHistory_newest_first (st : app) :
  let st' := fetchHistory st in
  storage st' = storage st /\
  match parse_saved (storage st) with
  | Some l =>
      Permutation (historyItems st') l /\
      StronglySorted newer_first (historyItems st') /\
      forall v,
        filter (fun e => (id e =? v)%Z) (historyItems st') =
        filter (fun e => (id e =? v)%Z) l
  | None => historyItems st' = []
  end.
Proof.
  cbv zeta; unfold fetchHistory.
  destruct (parse_saved (storage st)) as [l|]; fields.
  - split; [reflexivity|].
    split; [apply sort_desc_perm|].
    split; [apply sort_desc_sorted|].
    intros v; apply sort_desc_stable.
  - split; reflexivity.
Qed.


(** X13. Only "Save to History", for who is signed in, and the deletion of
    an entry write to the store, and only when what the store holds can be
    parsed: the first adds one entry at the end, with the text that would be
    exported, the second takes out the entries of an [id]. A store that
    cannot be parsed is left as it is by every handler. *)
Theorem store_writes (ev : event) (st : app) :
  (storage (handle ev st) = storage st \/
   exists l,
     parse_saved (storage st) = Some l /\
     ((exists now today exported,
         ev = Toolbar now today exported 5 /\
         isAuthenticated st = true /\
         storage (handle ev st) =
           Saved (l ++ [Entry now (textToExport st) today])) \/
      (exists id0,
         ev = DeleteItem id0 /\
         storage (handle ev st) =
           Saved (filter (fun item => negb (id item =? id0)%Z) l)))) /\
  (storage st = Unparsable -> storage (handle ev st) = Unparsable).
Proof.
  assert (storage (handle ev st) = storage st \/
          exists l,
            parse_saved (storage st) = Some l /\
            ((exists now today exported,
                ev = Toolbar now today exported 5 /\
                isAuthenticated st = true /\
                storage (handle ev st) =
                  Saved (l ++ [Entry now (textToExport st) today])) \/
             (exists id0,
                ev = DeleteItem id0 /\
                storage (handle ev st) =
                  Saved (filter (fun item => negb (id item =? id0)%Z) l))))
    as H.
  { destruct ev; cbn [handle];
      try (left; handlers; branches; fields; reflexivity).
    - toolbar; try (left; handlers; branches; fields; reflexivity).
      subst index; right; exists l; split; trivial.
      left; exists now, today, exported; auto.
    - unfold deleteFromHistory.
      destruct (parse_saved (storage st)) as [l|] eqn:P; [|now left].
      right; exists l; split; trivial.
      right; exists id0; split; trivial. }
  split; [exact H|].
  intros U; destruct H as [H|(l & P & _)]; [congruence|].
  rewrite U in P; discriminate.
Qed.




(** ** Grammar check and paraphrase *)

Lemma or_else_again (x : option jsstring) :
  or_else (Some (or_else x [])) [] = or_else x [].
Proof.
  unfold or_else; destruct x as [[|c t]|]; reflexivity.
Qed.

(** X15. A grammar check and a paraphrase keep the result of each other: in
    whichever order the two calls end, the analysis holds the corrected
    text of the one and the paraphrase of the other, whatever was there
    before, with the tone of the call that ended last. A result without a
    corrected text counts as the empty text. A call that fails leaves the
    analysis as it is. Loading is over when a call has ended. *)
Theorem check_and_paraphrase_compose (s1 s2 : jsstring)
  (c p : option jsstring) (st : app) :
  analysis (handleParaphrase_end s2 (resolved p)
              (handleCheckGrammar_end s1 (resolved c) st)) =
    Some (Analysis (js "auto") (or_else c []) (or_else p []) [] s2) /\
  analysis (handleCheckGrammar_end s1 (resolved c)
              (handleParaphrase_end s2 (resolved p) st)) =
    Some (Analysis (js "auto") (or_else c []) (or_else p []) [] s1) /\
  analysis (handleCheckGrammar_end s1 rejected st) = analysis st /\
  analysis (handleParaphrase_end s2 rejected st) = analysis st /\
  forall o,
    isLoading (handleCheckGrammar_end s1 o st) = false /\
    isLoading (handleParaphrase_end s2 o st) = false.
Proof.
  unfold handleParaphrase_end, handleCheckGrammar_end; fields.
  cbn [option_map detected_language corrected_text paraphrase].
  rewrite !or_else_again.
  repeat split; trivial; destruct o; reflexivity.
Qed.

(** ** The server *)

Section ServerFacts.

Import Server.

Variable json : Type.
Variable json_truthy : json -> bool.
Variable is_null : json -> bool.
Variable get : jsstring -> json -> option json.
Variable to_string : json -> jsstring.
Variable type_error : option jsstring.

Local Abbreviation handler :=
  (secureAnalyzeHandler json_truthy is_null get to_string type_error).
Local Abbreviation handler_try :=
  (secureAnalyzeHandler_try json_truthy is_null get to_string type_error).

Lemma rethrown_truthy (m : option jsstring) (fallback : jsstring) :
  truthy fallback = true ->
  truthy (if truthy_opt m then text_of m else fallback) = true.
Proof.
  intros F; destruct m as [[|c t]|]; simpl; auto.
Qed.

Lemma handler_throws_truthy (payload : option json)
  (worker : request json -> fetch_result json) (m : jsstring) :
  handler payload worker = throws m -> truthy m = true.
Proof.
  unfold secureAnalyzeHandler.
  destruct (handler_try payload worker) as [data|m0]; [discriminate|].
  intros [= <-]; now apply rethrown_truthy.
Qed.

(** X16. [secureAnalyzeHandler] returns only what the worker sent with an
    [ok] response, a truthy value with a property [corrected], as it is, and
    this for a payload that is neither [undefined] nor [null]; the request
    it sent carries the text and the mode of the payload. In every other
    case it throws, and the message of the error it throws is never empty. *)
Theorem secureAnalyzeHandler_outcome (payload : option json)
  (worker : request json -> fetch_result json) :
  match handler payload worker with
  | returns data =>
      exists p req status,
        payload = Some p /\ is_null p = false /\
        req_text req = get (js "text") p /\
        req_mode req = get (js "mode") p /\
        worker req = response true status (body data) /\
        json_truthy data = true /\
        get (js "corrected") data <> None
  | throws m => truthy m = true
  end.
Proof.
  unfold secureAnalyzeHandler.
  destruct (handler_try payload worker) as [data|m] eqn:E;
    [|now apply rethrown_truthy].
  unfold secureAnalyzeHandler_try in E.
  destruct payload as [p|]; [|discriminate].
  destruct (is_null p) eqn:Np; [discriminate|].
  match type of E with
  | context [worker ?r] => remember r as req eqn:Er;
                           destruct (worker req) as [m|ok status b] eqn:W
  end; [discriminate|].
  destruct ok; cbn [negb] in E.
  - destruct b as [m|d]; [discriminate|].
    destruct (json_truthy d) eqn:T; cbn [negb] in E; [|discriminate].
    destruct (get (js "corrected") d) eqn:G; [|discriminate].
    injection E as <-.
    exists p, req, status; subst req; cbn [req_text req_mode].
    repeat split; trivial; congruence.
  - destruct b as [m|d]; [discriminate|].
    destruct (is_null d); [discriminate|].
    destruct (get (js "error") d) as [e|]; [|discriminate].
    destruct (json_truthy e); discriminate.
Qed.

(** X17. The route of the analysis answers with the value the handler
    returns, or with the status 500 and the message of the error the
    handler throws, which is not empty: "Internal Server Error" is never
    what it answers. *)
Theorem analyze_route_answers (req_body : option json)
  (worker : request json -> fetch_result json) :
  match
    analyze_route json_truthy is_null get to_string type_error req_body
      worker
  with
  | ok_json data => handler req_body worker = returns data
  | server_error m =>
      handler req_body worker = throws m /\ truthy m = true
  | _ => False
  end.
Proof.
  unfold analyze_route.
  destruct (handler req_body worker) as [data|m] eqn:E; [reflexivity|].
  pose proof (handler_throws_truthy _ _ E) as T.
  rewrite T; split; [reflexivity | exact T].
Qed.

(** X18. The route of the signup answers with success exactly when the body
    has a truthy address and the worker, asked for this address, answered
    [ok]; it answers "Email is required", with the status 400, exactly for a
    body, not [null], that has no address or a falsy one; every other answer
    has the status 500 and an error that is not empty. The worker is asked
    only for a truthy address: what it would answer for any other does not
    change the answer of the route. *)
Theorem signup_route_answers (req_body : option json)
  (worker : json -> fetch_result json) :
  let route := signup_route json_truthy is_null get type_error req_body in
  (route worker = ok_success <->
   exists b email status rb,
     req_body = Some b /\ is_null b = false /\
     get (js "email") b = Some email /\
     json_truthy email = true /\
     worker email = response true status rb) /\
  (forall m,
     route worker = bad_request m <->
     m = js "Email is required" /\
     exists b,
       req_body = Some b /\ is_null b = false /\
       match get (js "email") b with
       | Some email => json_truthy email = false
       | None => True
       end) /\
  (forall m, route worker = server_error m -> truthy m = true) /\
  (forall data, route worker <> ok_json data) /\
  (forall worker' : json -> fetch_result json,
     (forall email, json_truthy email = true -> worker email = worker' email) ->
     route worker = route worker').
Proof.
  cbv zeta; unfold signup_route.
  destruct req_body as [b|]; [destruct (is_null b) eqn:Nb|];
    [| destruct (get (js "email") b) as [email|] eqn:G;
       [destruct (json_truthy email) eqn:T; cbn [negb];
        [destruct (worker email) as [m|[|] status rb] eqn:W; cbn [negb]|]|]
     |];
    repeat match goal with
    | |- _ /\ _ => split
    | |- _ <-> _ => split
    | |- forall _, _ => intro
    | H : ex _ |- _ => destruct H
    | H : _ /\ _ |- _ => destruct H
    | H : @eq (answer _) _ _ |- _ => discriminate H || (injection H as H)
    | H : @eq (option json) (Some _) _ |- _ => injection H as H
    | H : @eq (option json) None _ |- _ => discriminate H
    | H : forall e, _ -> worker e = _, T : json_truthy _ = true |- _ =>
        rewrite <- (H _ T)
    | _ => progress subst
    end;
    rewrite ?W, ?G in *;
    try discriminate; try congruence; try reflexivity;
    try (now apply rethrown_truthy);
    try solve [exists b, email, status, rb; auto];
    try solve [exists b; rewrite ?G; auto].
Qed.

End ServerFacts.
